(** * folder2anim (createGIF.py): image grouping and animation export

    A shallow embedding of the image-to-animation exporter found in
    [01_branding/4knowledges/flor/createGIF.py] and its sibling
    [01_branding/4knowledges/soul/createGIF.py], together with the
    properties of its discovery, grouping, ordering, frame conversion,
    encoding and output-path stages.

    The file system, the console and the imaging library are explicit
    values: a [Folder] lists the entries of the scanned directory, the
    pixel kernels of the imaging library are the fields of a [Pillow]
    record, and every function that can raise returns a [result]. *)

From Stdlib Require Import ZArith Lia Ascii String List Permutation.
From stdpp Require Import base tactics option list strings pretty gmap sorting.

Local Open Scope Z_scope.

(** ** Python builtins used by the scripts

    Text is modelled as strings of 8-bit characters, read as the code
    points below 256 (ASCII and Latin-1); the functions below follow
    CPython 3.11 on such text. *)
Module Py.

(** The exceptions the scripts raise or catch; all of them are
    subclasses of [Exception].  ([sys.exit] raises [SystemExit], which
    an [except Exception] clause lets through: it is a separate
    outcome of [main] below, not an [exn].) *)
Inductive exn : Type :=
| ValueError (msg : string)
| OSError
| UnidentifiedImageError
| IndexError
| KeyError
| EOFError
| MarkupError (msg : string).

Inductive result (A : Type) : Type :=
| Ok (a : A)
| Raise (e : exn).
Arguments Ok {A} a.
Arguments Raise {A} e.

(** [str(e)] for the exceptions that carry their text; the text of
    the others comes from the libraries and is not kept. *)
Definition exn_message (e : exn) : string :=
  match e with
  | ValueError msg | MarkupError msg => msg
  | _ => EmptyString
  end.

#[global] Instance result_ret : MRet result := fun _ a => Ok a.
#[global] Instance result_bind : MBind result := fun _ _ k r =>
  match r with Ok a => k a | Raise e => Raise e end.

(** [str.lower()]: [A]..[Z] and the upper-case letters of Latin-1
    (code points 192..222 without the multiplication sign 215) move 32
    places up, every other character stays. *)
Definition ascii_lower (c : ascii) : ascii :=
  let n := N_of_ascii c in
  if (((65 <=? n) && (n <=? 90))
      || ((192 <=? n) && (n <=? 222) && negb (n =? 215)))%N
  then ascii_of_N (n + 32) else c.

Fixpoint lower (s : string) : string :=
  match s with
  | EmptyString => EmptyString
  | String c s' => String (ascii_lower c) (lower s')
  end.

(** [s.rfind(c)]: index of the last occurrence of [c], [None] for -1. *)
Fixpoint rfind (c : ascii) (s : string) : option nat :=
  match s with
  | EmptyString => None
  | String a s' =>
      match rfind c s' with
      | Some i => Some (S i)
      | None => if Ascii.eqb a c then Some O else None
      end
  end.

(** [s[i:]] *)
Fixpoint slice_from (i : nat) (s : string) : string :=
  match i, s with
  | O, _ => s
  | S i', String _ s' => slice_from i' s'
  | S _, EmptyString => EmptyString
  end.

(** [c in s] for a single character [c]. *)
Fixpoint contains (c : ascii) (s : string) : bool :=
  match s with
  | EmptyString => false
  | String a s' => Ascii.eqb a c || contains c s'
  end.

(** [s.split(c, 1)] when [c] occurs in [s]: the text before and after
    its first occurrence. *)
Fixpoint split_once (c : ascii) (s : string) : option (string * string) :=
  match s with
  | EmptyString => None
  | String a s' =>
      if Ascii.eqb a c then Some (EmptyString, s')
      else match split_once c s' with
           | Some (l, r) => Some (String a l, r)
           | None => None
           end
  end.

(** White space as [str.strip()] sees it ([str.isspace]). *)
Definition is_space (c : ascii) : bool :=
  let n := N_of_ascii c in
  (((9 <=? n) && (n <=? 13)) || ((28 <=? n) && (n <=? 32))
   || (n =? 133) || (n =? 160))%N.

Fixpoint lstrip (s : string) : string :=
  match s with
  | EmptyString => EmptyString
  | String c s' => if is_space c then lstrip s' else s
  end.

Definition strip (s : string) : string :=
  String.rev (lstrip (String.rev (lstrip s))).

(** A decimal digit, the only kind [int()] reads below code point
    256. *)
Definition is_digit (c : ascii) : bool :=
  let n := N_of_ascii c in ((48 <=? n) && (n <=? 57))%N.

Definition digit_value (c : ascii) : Z := Z.of_N (N_of_ascii c) - 48.

Fixpoint all_digits (s : string) : bool :=
  match s with
  | EmptyString => true
  | String c s' => is_digit c && all_digits s'
  end.

(** The characters [str.isdigit] accepts: the decimal digits and the
    superscripts two, three and one (178, 179, 185), which [int()]
    does not read. *)
Definition is_digit_char (c : ascii) : bool :=
  let n := N_of_ascii c in
  is_digit c || ((n =? 178) || (n =? 179) || (n =? 185))%N.

Fixpoint all_digit_chars (s : string) : bool :=
  match s with
  | EmptyString => true
  | String c s' => is_digit_char c && all_digit_chars s'
  end.

(** [s.isdigit()]: non-empty and made of digit characters only. *)
Definition isdigit (s : string) : bool :=
  match s with EmptyString => false | _ => all_digit_chars s end.

(** [str(i)] for a non-negative integer. *)
Definition str (i : nat) : string := pretty i.

(** [repr(s)]: single quotes unless the text has a single and no
    double quote; the quote in use and the backslash are escaped, tab,
    newline and carriage return get their letter, every other
    character that is not printable its two hexadecimal digits. *)
Definition hex_digit (n : N) : ascii :=
  if (n <? 10)%N then ascii_of_N (48 + n) else ascii_of_N (87 + n).

Definition double_quote : ascii := ascii_of_N 34.

Definition repr_char (quote c : ascii) : string :=
  let n := N_of_ascii c in
  if Ascii.eqb c quote || Ascii.eqb c "\" then String "\" (String c "")
  else if (n =? 9)%N then "\t"
  else if (n =? 10)%N then "\n"
  else if (n =? 13)%N then "\r"
  else if ((n <? 32) || (n =? 127) || ((128 <=? n) && (n <=? 160))
           || (n =? 173))%N
       then String "\" (String "x" (String (hex_digit (n / 16))
                                      (String (hex_digit (n mod 16)) "")))
  else String c "".

Fixpoint repr_chars (quote : ascii) (s : string) : string :=
  match s with
  | EmptyString => EmptyString
  | String c s' => repr_char quote c +:+ repr_chars quote s'
  end.

Definition repr (s : string) : string :=
  let quote :=
    if contains "'" s && negb (contains double_quote s)
    then double_quote else "'"%char in
  String quote (repr_chars quote s +:+ String quote "").

(** The digits of an [int()] literal: decimal digits, with single
    underscores allowed between two digits. *)
Fixpoint int_digits (acc : Z) (after_digit : bool) (s : string) : option Z :=
  match s with
  | EmptyString => if after_digit then Some acc else None
  | String c s' =>
      if is_digit c then int_digits (10 * acc + digit_value c) true s'
      else if Ascii.eqb c "_" && after_digit then int_digits acc false s'
      else None
  end.

(** White space as [int()] skips it around the literal: the C white
    space and the two spaces above code point 127 (the separators
    28..31, which [strip] removes, are not among it). *)
Definition is_space_int (c : ascii) : bool :=
  let n := N_of_ascii c in
  (((9 <=? n) && (n <=? 13)) || (n =? 32) || (n =? 133) || (n =? 160))%N.

Fixpoint lstrip_int (s : string) : string :=
  match s with
  | EmptyString => EmptyString
  | String c s' => if is_space_int c then lstrip_int s' else s
  end.

Fixpoint all_space_int (s : string) : bool :=
  match s with
  | EmptyString => true
  | String c s' => is_space_int c && all_space_int s'
  end.

(** The run of digits and underscores a text starts with, and what
    follows it. *)
Fixpoint digit_run (s : string) : string * string :=
  match s with
  | EmptyString => (EmptyString, EmptyString)
  | String c s' =>
      if is_digit c || Ascii.eqb c "_"
      then let r := digit_run s' in (String c r.1, r.2)
      else (EmptyString, s)
  end.

Fixpoint count_digits (s : string) : nat :=
  match s with
  | EmptyString => O
  | String c s' => if is_digit c then S (count_digits s') else count_digits s'
  end.

(** [sys.get_int_max_str_digits()], at its default. *)
Definition int_max_str_digits : nat := 4300.

Definition invalid_literal (s : string) : exn :=
  ValueError ("invalid literal for int() with base 10: "
              +:+ substring 0 200 (repr s)).

Definition exceeds_limit (digits : nat) : exn :=
  ValueError ("Exceeds the limit (" +:+ str int_max_str_digits
              +:+ " digits) for integer string conversion: value has "
              +:+ str digits
              +:+ " digits; use sys.set_int_max_str_digits() to increase the limit").

(** [int(s)]: white space, an optional sign, the run of digits, white
    space.  A run with a misplaced underscore is refused first, then a
    run of more than [int_max_str_digits] digits, then text after the
    run. *)
Definition int (s : string) : result Z :=
  let t := lstrip_int s in
  let negative := match t with String c _ => Ascii.eqb c "-" | _ => false end in
  let literal :=
    match t with
    | String c r => if Ascii.eqb c "+" || Ascii.eqb c "-" then r else t
    | EmptyString => EmptyString
    end in
  let split := digit_run literal in
  let run := split.1 in
  let rest := split.2 in
  match int_digits 0 false run with
  | None => Raise (invalid_literal s)
  | Some z =>
      if (int_max_str_digits <? count_digits run)%nat
      then Raise (exceeds_limit (count_digits run))
      else if all_space_int rest then Ok (if negative then - z else z)
      else Raise (invalid_literal s)
  end.

(** [sorted(xs, key=key, reverse=reverse)].  Python's sort is stable:
    elements with equal keys keep their relative order, also under
    [reverse=True] (the list is reversed, sorted stably, and reversed
    again).  Stable insertion sort computes the same list. *)
Section Sorted.
Context {A K : Type} (leb : K -> K -> bool) (key : A -> K).

Fixpoint insert_by (x : A) (l : list A) : list A :=
  match l with
  | [] => [x]
  | y :: l' => if leb (key x) (key y) then x :: y :: l'
               else y :: insert_by x l'
  end.

Fixpoint stable_sort (l : list A) : list A :=
  match l with
  | [] => []
  | x :: l' => insert_by x (stable_sort l')
  end.

Definition sorted (reverse : bool) (l : list A) : list A :=
  if reverse then rev (stable_sort (rev l)) else stable_sort l.

(** [x] comes no later than [y] in the order of the keys. *)
Definition key_le (x y : A) : Prop := leb (key x) (key y) = true.
End Sorted.

End Py.
Import Py.

(** ** pathlib *)
Module Pathlib.

(** A path of the scanned folder is identified by its final component
    ([Path.name]); the scripts never leave that folder. *)
Definition Path : Type := string.

Definition name (p : Path) : string := p.

(** [PurePath.suffix]: the part of the name from its last dot on,
    empty when the name has no dot, starts with its only dot, or ends
    with a dot ([i = name.rfind('.')], then [name[i:]] when
    [0 < i < len(name) - 1]). *)
Definition suffix (p : Path) : string :=
  match rfind "."%char (name p) with
  | Some i =>
      if ((0 <? i) && (i <? String.length (name p) - 1))%nat
      then slice_from i (name p) else ""
  | None => ""
  end.

End Pathlib.
Import Pathlib.

(** ** The imaging library (Pillow), as far as the scripts use it *)
Module PIL.

(** One pixel: its band values, each in 0..255 ([L] has one band,
    [LA] two, [RGB] three, [RGBA] four). *)
Definition Pixel : Type := list Z.

(** A decoded raster.  [mode] is Pillow's mode string, [size] is
    (width, height), [pixels] is row-major, and [orientation] is the
    EXIF orientation tag of the file it came from (1 when upright). *)
Record Image : Type := mkImage {
  mode : string;
  size : Z * Z;
  pixels : list Pixel;
  orientation : Z
}.

Inductive Resampling : Type :=
| NEAREST | BOX | BILINEAR | HAMMING | BICUBIC | LANCZOS.

(** The keyword arguments of [first.save(out_path, ...)]. *)
Record SaveArgs : Type := {
  format : string;
  save_all : bool;
  append_images : list Image;
  duration : Z;
  loop : Z;
  disposal : option Z;
  optimize : option bool;
  quality : option Z;
  method : option Z
}.

(** The pixel kernels of the library.  What they compute is outside
    the scripts; each may raise.  The wrappers below add the part of
    Pillow's contract the scripts rely on: which mode and size the
    returned image has.  [k_save first args] is the encoder: it
    returns the image a later [Image.open] of the written file gives. *)
Record Pillow : Type := {
  k_exif_transpose : Image -> result (option Image);
  k_resample : Resampling -> Image -> Z * Z -> result (list Pixel);
  k_convert : Image -> string -> result (list Pixel);
  k_quantize : Image -> result (list Pixel);
  k_save : Image -> SaveArgs -> result Image
}.

Definition white : Pixel := [255; 255; 255].

(** [Image.new(mode, size, color)] *)
Definition new (m : string) (sz : Z * Z) (color : Pixel) : Image :=
  {| mode := m; size := sz;
     pixels := replicate (Z.to_nat (sz.1 * sz.2)) color;
     orientation := 1 |}.

(** [image.split()[-1]]: the last band as an [L] image. *)
Definition last_band (im : Image) : Image :=
  {| mode := "L"; size := size im;
     pixels := (fun p => [List.last p 0]) <$> pixels im;
     orientation := orientation im |}.

(** Rounded division by 255 as the library's blend does it. *)
Definition div255 (t : Z) : Z :=
  Z.shiftr (Z.shiftr (t + 128) 8 + (t + 128)) 8.

Definition blend8 (m dst src : Z) : Z := div255 (dst * (255 - m) + src * m).

(** The three colour bytes a pixel of an alpha mode occupies in the
    library's 4-byte storage: [LA] is kept as (L, L, L, A). *)
Definition colour_bytes (m : string) (p : Pixel) : Pixel :=
  if String.eqb m "LA" then
    let l := List.hd 0 p in [l; l; l]
  else take 3 p.

(** [dst.paste(src, mask=mask)] with no box and a source of the size
    of [dst], the only way the scripts call it.  A source of another
    mode is converted to the mode of [dst], except that [LA], [RGBA]
    and [RGBa] sources go into an [RGB] destination byte for byte.
    Without a mask every pixel is overwritten; with an [L] mask each
    band is blended by the mask value. *)
Definition paste (K : Pillow) (dst src : Image) (mask : option Image)
  : result Image :=
  src_px ←
    (if String.eqb (mode dst) (mode src) then Ok (pixels src)
     else if String.eqb (mode dst) "RGB"
             && bool_decide (mode src ∈ ["LA"; "RGBA"; "RGBa"])
          then Ok (colour_bytes (mode src) <$> pixels src)
          else k_convert K src (mode dst));
  Ok {| mode := mode dst; size := size dst;
        pixels :=
          match mask with
          | None => src_px
          | Some mk =>
              zip_with (fun '(d, s) a => zip_with (blend8 (List.hd 0 a)) d s)
                       (zip (pixels dst) src_px) (pixels mk)
          end;
        orientation := orientation dst |}.

(** [image.convert(mode)] *)
Definition convert (K : Pillow) (im : Image) (m : string) : result Image :=
  px ← k_convert K im m;
  Ok {| mode := m; size := size im; pixels := px;
        orientation := orientation im |}.

(** [image.convert("P", palette=Image.Palette.ADAPTIVE)] *)
Definition convert_P_adaptive (K : Pillow) (im : Image) : result Image :=
  px ← k_quantize K im;
  Ok {| mode := "P"; size := size im; pixels := px;
        orientation := orientation im |}.

(** [image.copy()] *)
Definition copy (im : Image) : Image := im.

(** The filter [image.resize] hands to the resampling kernel when it
    is asked for [f]: as the library documents, an image of mode [1]
    or [P] is always resampled with [NEAREST]. *)
Definition effective_filter (m : string) (f : Resampling) : Resampling :=
  if bool_decide (m ∈ ["1"; "P"]) then NEAREST else f.

(** [image.resize(size, resample)]: an image that already has the
    size is copied; any other is resampled by the kernel, with the
    filter the library settles on for its mode. *)
Definition resize (K : Pillow) (im : Image) (sz : Z * Z) (f : Resampling)
  : result Image :=
  if bool_decide (size im = sz) then Ok (copy im)
  else
    px ← k_resample K (effective_filter (mode im) f) im sz;
    Ok {| mode := mode im; size := sz; pixels := px;
          orientation := orientation im |}.

End PIL.
Import PIL.

(** ** The scanned folder *)
Module FS.

(** One directory entry.  [st_ctime] is [None] when [stat()] raises;
    the time stamp itself is a float in Python, of which only the
    order is used, so it is kept as an integer tick count.  [decode]
    is what [Image.open] gives, and [encoded] remembers the encoder
    call that produced a file written by the tool. *)
Record Entry : Type := {
  is_file : bool;
  st_ctime : option Z;
  decode : result Image;
  encoded : option (Image * SaveArgs)
}.

(** The folder the script lives in: its own name ([base_dir.name]),
    its entries in the order [iterdir()] yields them, and the time
    stamp the next written file receives. *)
Record Folder : Type := {
  folder_name : string;
  iterdir : list (Path * Entry);
  clock : Z
}.

Definition entry (fs : Folder) (p : Path) : option Entry :=
  (fun ie => ie.2.2) <$> list_find (fun pe => bool_decide (pe.1 = p)) (iterdir fs).

(** [p.exists()] *)
Definition exists_ (fs : Folder) (p : Path) : bool :=
  bool_decide (p ∈ (iterdir fs).*1).

(** [p.stat().st_ctime] *)
Definition stat_ctime (fs : Folder) (p : Path) : result Z :=
  match entry fs p with
  | Some e => match st_ctime e with Some t => Ok t | None => Raise OSError end
  | None => Raise OSError
  end.

(** [Image.open(p)] *)
Definition open (fs : Folder) (p : Path) : result Image :=
  match entry fs p with
  | Some e => decode e
  | None => Raise OSError
  end.

(** [p.stat()], as far as it can raise. *)
Definition stat (fs : Folder) (p : Path) : result unit :=
  _ ← stat_ctime fs p; Ok ().

(** Creating or replacing the file [p]. *)
Definition write (fs : Folder) (p : Path) (e : Entry) : Folder :=
  {| folder_name := folder_name fs;
     iterdir :=
       if exists_ fs p
       then (fun pe => if bool_decide (pe.1 = p) then (p, e) else pe) <$> iterdir fs
       else iterdir fs ++ [(p, e)];
     clock := clock fs |}.

(** [first.save(out_path, **args)]: on success the folder holds the
    encoded file; when the encoder raises, the folder is kept as it
    was (what a failed encoder leaves on disk is not tracked). *)
Definition save (K : Pillow) (first : Image) (out_path : Path)
    (args : SaveArgs) (fs : Folder) : result unit * Folder :=
  match k_save K first args with
  | Ok im =>
      (Ok (), write fs out_path
                {| is_file := true; st_ctime := Some (clock fs);
                   decode := Ok im; encoded := Some (first, args) |})
  | Raise e => (Raise e, fs)
  end.

End FS.
Import FS.

(** ** createGIF.py: helpers *)
Module CreateGIF.

Definition SUPPORTED_EXTS : gset string :=
  {[ ".jpg"; ".jpeg"; ".png"; ".bmp"; ".tif"; ".tiff"; ".webp" ]}.
Definition DEFAULT_FPS : Z := 8.
Definition DEFAULT_QUALITY : Z := 80.
Definition MAX_FPS : Z := 60.

Definition discover_images (folder : Folder) : list Path :=
  (filter (fun pe => is_file pe.2 = true
                     ∧ lower (suffix pe.1) ∈ SUPPORTED_EXTS)
          (iterdir folder)).*1.

Definition get_image_size (fs : Folder) (img_path : Path) : option (Z * Z) :=
  match open fs img_path with
  | Ok im => Some (size im)
  | Raise _ => None
  end.

Definition has_alpha_channel (fs : Folder) (img_path : Path) : bool :=
  match open fs img_path with
  | Ok im => bool_decide (mode im ∈ ["RGBA"; "LA"; "PA"])
  | Raise _ => false
  end.

(** [groups.setdefault(size, []).append(p)] *)
Definition setdefault_append (groups : gmap (Z * Z) (list Path))
    (size : Z * Z) (p : Path) : gmap (Z * Z) (list Path) :=
  <[size := default [] (groups !! size) ++ [p]]> groups.

Definition group_by_dimensions (fs : Folder) (paths : list Path)
  : gmap (Z * Z) (list Path) :=
  foldl (fun groups p =>
           match get_image_size fs p with
           | None => groups
           | Some size => setdefault_append groups size p
           end) ∅ paths.

(** [group_by_dimensions(paths).keys()]: a dict yields its keys in the
    order in which they were first inserted, and [setdefault] puts a
    key that is new at the end. *)
Definition setdefault_key (keys : list (Z * Z)) (size : Z * Z)
  : list (Z * Z) :=
  if bool_decide (size ∈ keys) then keys else keys ++ [size].

Definition group_by_dimensions_keys (fs : Folder) (paths : list Path)
  : list (Z * Z) :=
  foldl (fun keys p =>
           match get_image_size fs p with
           | None => keys
           | Some size => setdefault_key keys size
           end) [] paths.

Definition parse_whxhh (s : string) : result (Z * Z) :=
  if negb (contains "x" (lower s)) then
    Raise (ValueError "Expected format WIDTHxHEIGHT, e.g., 1080x1080")
  else
    match split_once "x" (lower s) with
    | Some (w_str, h_str) =>
        w ← int (strip w_str);
        h ← int (strip h_str);
        if (w <=? 0) || (h <=? 0) then
          Raise (ValueError "Width/height must be positive integers")
        else Ok (w, h)
    | None => Raise (ValueError "not enough values to unpack")
    end.

(** The key of the first [sorted] call; it is computed for every path
    before anything is sorted, so one failing [stat()] sends the whole
    call to the fallback. *)
Definition ctime_key (fs : Folder) (p : Path) : Z :=
  match stat_ctime fs p with Ok t => t | Raise _ => 0 end.

Definition sort_by_ctime (fs : Folder) (paths : list Path) (reverse : bool)
  : list Path :=
  match mapM (fun p => match stat_ctime fs p with
                       | Ok t => Some t | Raise _ => None end) paths with
  | Some _ => sorted Z.leb (ctime_key fs) reverse paths
  | None => sorted String.leb (fun p => lower (name p)) reverse paths
  end.

(** The [while True] loop of [unique_output_path], with the number of
    iterations it may take as [fuel]. *)
Fixpoint first_unused (fs : Folder) (base_name ext : string)
    (fuel i : nat) : option Path :=
  match fuel with
  | O => None
  | S fuel' =>
      let candidate := base_name +:+ "_" +:+ str i +:+ "." +:+ ext in
      if negb (exists_ fs candidate) then Some candidate
      else first_unused fs base_name ext fuel' (S i)
  end.

(** One more iteration than the folder has entries is always enough
    (see [unique_output_path_total]). *)
Definition unique_output_path (fs : Folder) (ext : string) (overwrite : bool)
  : option Path :=
  let base_name := folder_name fs in
  let out := base_name +:+ "." +:+ ext in
  if overwrite || negb (exists_ fs out) then Some out
  else first_unused fs base_name ext (S (length (iterdir fs))) 1.

Definition _convert_for_gif (K : Pillow) (image : Image) : result Image :=
  image ←
    (if bool_decide (mode image ∈ ["RGBA"; "LA"]) then
       let background := new "RGB" (size image) white in
       if String.eqb (mode image) "RGBA" then
         paste K background image (Some (last_band image))
       else
         paste K background image None
     else Ok image);
  convert_P_adaptive K image.

Definition _convert_for_webp (K : Pillow) (image : Image) : result Image :=
  if negb (bool_decide (mode image ∈ ["RGBA"; "RGB"])) then
    convert K image "RGBA"
  else Ok image.

Definition _ensure_rgba (K : Pillow) (image : Image) : result Image :=
  if negb (String.eqb (mode image) "RGBA") then convert K image "RGBA"
  else Ok image.

Inductive LogRecord : Type :=
| LogDebug (frame total : nat) (p : Path)
| LogError (p : Path) (error : exn)
| LogWarning (loaded failed : nat).

(** The body of the [try] block of [load_frames_safely]: one path to
    one frame. *)
Definition load_frame (K : Pillow) (fs : Folder)
    (resize_to : option (Z * Z)) (target_format : string)
    (img_path : Path) : result Image :=
  raw_image ← open fs img_path;
  transposed ← k_exif_transpose K raw_image;
  let processed_image :=
    match transposed with Some im => im | None => copy raw_image end in
  processed_image ←
    match resize_to with
    | Some sz => resize K processed_image sz LANCZOS
    | None => Ok processed_image
    end;
  processed_image ←
    (if String.eqb (lower target_format) "gif" then
       _convert_for_gif K processed_image
     else if String.eqb (lower target_format) "webp" then
       _convert_for_webp K processed_image
     else _ensure_rgba K processed_image);
  Ok (copy processed_image).

(** The [for] loop: frames, failure count and log so far. *)
Fixpoint load_loop (K : Pillow) (fs : Folder) (resize_to : option (Z * Z))
    (target_format : string) (total path_idx : nat) (paths : list Path)
    (frames : list Image) (failed_count : nat) (log : list LogRecord)
  : list Image * nat * list LogRecord :=
  match paths with
  | [] => (frames, failed_count, log)
  | img_path :: paths' =>
      match load_frame K fs resize_to target_format img_path with
      | Ok im =>
          load_loop K fs resize_to target_format total (S path_idx) paths'
            (frames ++ [im]) failed_count
            (log ++ [LogDebug (path_idx + 1) total img_path])
      | Raise error =>
          load_loop K fs resize_to target_format total (S path_idx) paths'
            frames (failed_count + 1) (log ++ [LogError img_path error])
      end
  end.

Definition no_valid_frames : exn :=
  ValueError "No valid frames could be loaded from the provided images".

(** Returns what the function returns or raises, and what it logged. *)
Definition load_frames_safely (K : Pillow) (fs : Folder) (paths : list Path)
    (resize_to : option (Z * Z)) (target_format : string)
  : result (list Image) * list LogRecord :=
  let '(frames, failed_count, log) :=
    load_loop K fs resize_to target_format (length paths) 0 paths [] 0%nat [] in
  match frames with
  | [] => (Raise no_valid_frames, log)
  | _ =>
      (Ok frames,
       if (0 <? failed_count)%nat
       then log ++ [LogWarning (length frames) failed_count]
       else log)
  end.

(** [int(1000 / max(1, fps))] truncates a float quotient.  For an
    integer divisor d >= 1 the exact quotient 1000 / d is either an
    integer or at least 1 / d away from the next one, which is far more
    than the rounding error of the division, so the truncated float is
    the truncated integer quotient [Z.quot 1000 d]. *)
Definition save_animation (K : Pillow) (frames : list Image)
    (out_path : Path) (fps : Z) (fmt : string) (quality : Z) (fs : Folder)
  : result unit * Folder :=
  match frames with
  | [] => (Raise (ValueError "No frames to save"), fs)
  | first :: rest =>
      let duration_ms := Z.max 1 (Z.quot 1000 (Z.max 1 fps)) in
      if String.eqb fmt "gif" then
        save K first out_path
          {| format := "GIF"; save_all := true; append_images := rest;
             duration := duration_ms; loop := 0; disposal := Some 2;
             optimize := Some true; quality := None; method := None |} fs
      else if String.eqb fmt "webp" then
        save K first out_path
          {| format := "WEBP"; save_all := true; append_images := rest;
             duration := duration_ms; loop := 0; disposal := None;
             optimize := None; quality := Some quality;
             method := Some 6 |} fs
      else (Raise (ValueError ("Unsupported format: " +:+ fmt)), fs)
  end.

End CreateGIF.
Import CreateGIF.

(** ** createGIF.py: the command-line entry point *)
Module Main.

(** The two copies of the script: [flor] has the manual selection
    mode (group "0"), [soul] does not. *)
Inductive Script : Type := flor | soul.

Definition has_interactive_mode (script : Script) : bool :=
  match script with flor => true | soul => false end.

(** The values click hands to [main]. *)
Record Options : Type := {
  opt_fmt : option string;
  opt_fps : Z;
  opt_resize : option string;
  opt_group : option string;
  opt_reverse : bool;
  opt_overwrite : bool;
  opt_quality : Z;
  opt_non_interactive : bool;
  opt_dry_run : bool;
  opt_verbose : bool
}.

(** What the user types when asked: the accepted answer of each
    prompt, and the lines typed in the manual selection loop.
    [print_markup] is [console.print] of the rich library, which reads
    square-bracket tags in the text it is given and raises
    [MarkupError] for a tag that closes nothing; what it accepts is
    outside the scripts. *)
Record Console : Type := {
  ask_group : string;
  ask_format : string;
  ask_resize : string;
  ask_confirm : bool;
  selection_inputs : list string;
  print_markup : string -> result unit
}.

(** How a run of [main] ends: it returns, an exception escapes, it
    calls [sys.exit(code)], or a loop was cut off by its fuel. *)
Inductive outcome (A : Type) : Type :=
| Return (a : A)
| Raised (e : exn)
| Exited (code : Z)
| Cut.
Arguments Return {A} a.
Arguments Raised {A} e.
Arguments Exited {A} code.
Arguments Cut {A}.

(** [main] reads and writes the folder. *)
Record M (A : Type) : Type := mkM { run : Folder -> outcome A * Folder }.
Arguments mkM {A} run.
Arguments run {A} m fs.

#[global] Instance M_ret : MRet M := fun _ a => mkM (fun fs => (Return a, fs)).
#[global] Instance M_bind : MBind M := fun _ _ k m =>
  mkM (fun fs =>
         match run m fs with
         | (Return a, fs') => run (k a) fs'
         | (Raised e, fs') => (Raised e, fs')
         | (Exited c, fs') => (Exited c, fs')
         | (Cut, fs') => (Cut, fs')
         end).

Definition sys_exit {A} (code : Z) : M A := mkM (fun fs => (Exited code, fs)).
Definition gets {A} (f : Folder -> A) : M A :=
  mkM (fun fs => (Return (f fs), fs)).
Definition lift {A} (r : result A) : M A :=
  mkM (fun fs =>
         (match r with Ok a => Return a | Raise e => Raised e end, fs)).

(** The exit status of the process. *)
Definition exit_code {A} (o : outcome A) : option Z :=
  match o with
  | Return _ => Some 0
  | Raised _ => Some 1
  | Exited c => Some c
  | Cut => None
  end.

(** Truth value of an optional string ([if group:]). *)
Definition truthy (s : option string) : bool :=
  match s with Some (String _ _) => true | _ => false end.

(** [xs[i]] for a non-negative [i]. *)
Definition index {A} (xs : list A) (i : Z) : result A :=
  match xs !! Z.to_nat i with Some x => Ok x | None => Raise IndexError end.

(** Tuples compare lexicographically. *)
Definition triple_leb (a b : Z * Z * Z) : bool :=
  let '(a1, a2, a3) := a in
  let '(b1, b2, b3) := b in
  (a1 <? b1) || ((a1 =? b1) && ((a2 <? b2) || ((a2 =? b2) && (a3 <=? b3)))).

Definition area_key (wh : Z * Z) : Z * Z * Z := (wh.1 * wh.2, wh.1, wh.2).

(** [sorted(groups.keys(), key=..., reverse=True)].  The sort key
    tells any two sizes apart, so the order in which the dict yields
    its keys does not show in the result ([sizes_sorted_keys] below),
    and the keys are taken from the map. *)
Definition sizes_sorted (groups : gmap (Z * Z) (list Path)) : list (Z * Z) :=
  sorted triple_leb area_key true (elements (dom groups)).

Inductive Selection : Type :=
| Interactive
| Group (selected_wh : Z * Z).

Definition in_range (gi : Z) (sizes : list (Z * Z)) : bool :=
  (1 <=? gi) && (gi <=? Z.of_nat (length sizes)).

(** The [try] body that resolves [--group]. *)
Definition resolve_group (script : Script) (group : string)
    (groups : gmap (Z * Z) (list Path)) : result Selection :=
  if has_interactive_mode script && String.eqb group "0" then Ok Interactive
  else if isdigit group then
    gi ← int group;
    if negb (in_range gi (sizes_sorted groups)) then Raise (ValueError "")
    else selected_wh ← index (sizes_sorted groups) (gi - 1);
         Ok (Group selected_wh)
  else
    selected_wh ← parse_whxhh group;
    if negb (bool_decide (is_Some (groups !! selected_wh)))
    then Raise (ValueError "")
    else Ok (Group selected_wh).

(** The same choice typed at the prompt.  The handler of the last
    branch prints the text of the exception it caught. *)
Definition resolve_choice (c : Console) (script : Script) (choice : string)
    (groups : gmap (Z * Z) (list Path)) : M Selection :=
  if has_interactive_mode script && String.eqb choice "0" then mret Interactive
  else if isdigit choice then
    gi ← lift (int choice);
    if negb (in_range gi (sizes_sorted groups)) then sys_exit 2
    else selected_wh ← lift (index (sizes_sorted groups) (gi - 1));
         mret (Group selected_wh)
  else
    match parse_whxhh choice with
    | Ok selected_wh =>
        if negb (bool_decide (is_Some (groups !! selected_wh)))
        then sys_exit 2
        else mret (Group selected_wh)
    | Raise e =>
        _ ← lift (print_markup c ("[red]" +:+ exn_message e +:+ "[/]"));
        sys_exit 2
    end.

(** The selection loop of [interactive_image_selection], one typed
    line per iteration.  Every iteration first lists the images, which
    calls [stat()] on each of them. *)
Fixpoint selection_loop (fs : Folder) (all_images : list Path)
    (inputs : list string) (selected_frames : list Path)
  : outcome (list Path) :=
  match mapM (fun p => match stat fs p with
                       | Ok _ => Some () | Raise _ => None end) all_images with
  | None => Raised OSError
  | Some _ =>
    match inputs with
    | [] => Raised EOFError
    | line :: rest =>
      let continue := selection_loop fs all_images rest in
      let user_input := lower (strip line) in
      if String.eqb user_input "done" then
        match selected_frames with
        | [] => continue selected_frames
        | _ => Return selected_frames
        end
      else if String.eqb user_input "quit" then Exited 0
      else if String.eqb user_input "clear" then continue []
      else if String.eqb user_input "preview" then continue selected_frames
      else
        match user_input with
        | String "r" (String _ _ as number) =>
            match int number with
            | Ok frame_num =>
                if (1 <=? frame_num)
                   && (frame_num <=? Z.of_nat (length selected_frames))
                then continue (delete (Z.to_nat (frame_num - 1)) selected_frames)
                else continue selected_frames
            | Raise _ => continue selected_frames
            end
        | _ =>
            if isdigit user_input then
              match int user_input with
              | Ok img_num =>
                  if (1 <=? img_num)
                     && (img_num <=? Z.of_nat (length all_images))
                  then
                    match index all_images (img_num - 1) with
                    | Ok selected_img =>
                        continue (selected_frames ++ [selected_img])
                    | Raise e => Raised e
                    end
                  else continue selected_frames
              | Raise e => Raised e
              end
            else continue selected_frames
        end
    end
  end.

Definition interactive_image_selection (inputs : list string)
    (all_images : list Path) : M (list Path) :=
  mkM (fun fs => (selection_loop fs all_images inputs [], fs)).

(** [ask_user_preferences]; its [except ValueError] handler prints
    the text of the exception before it falls back to no resizing. *)
Definition ask_user_preferences (c : Console) (non_interactive : bool)
  : result (string * option (Z * Z)) :=
  if non_interactive then Ok ("gif", None)
  else
    let fmt_choice := ask_format c in
    let resize_input := strip (ask_resize c) in
    resize_to ←
      match resize_input with
      | EmptyString => Ok None
      | _ => match parse_whxhh resize_input with
             | Ok wh => Ok (Some wh)
             | Raise (ValueError msg) =>
                 _ ← print_markup c ("[yellow]Warning: " +:+ msg
                                     +:+ ". Using original dimensions.[/]");
                 Ok None
             | Raise e => Raise e
             end
      end;
    Ok (fmt_choice, resize_to).

(** [main].  Of what it prints, the three messages that carry the
    text of an exception raised on the user's input are kept, since
    the console can refuse them; the tables and the messages of fixed
    text, of file names and of library errors are left out. *)
Definition main (script : Script) (K : Pillow) (o : Options) (c : Console)
  : M unit :=
  images ← gets discover_images;
  match images with
  | [] => sys_exit 1
  | _ =>
  groups ← gets (fun fs => group_by_dimensions fs images);
  if bool_decide (groups = ∅) then sys_exit 1 else
  (* Resolve target group *)
  selection ←
    (if truthy (opt_group o) then
       match resolve_group script (default "" (opt_group o)) groups with
       | Ok s => mret s
       | Raise _ => sys_exit 2
       end
     else if opt_non_interactive o then sys_exit 2
     else resolve_choice c script (ask_group c) groups);
  (* Handle interactive mode or group-based selection, then order *)
  '(selected_wh, ordered) ←
    match selection with
    | Interactive =>
        selected_files ←
          interactive_image_selection (selection_inputs c) images;
        match selected_files with
        | first :: _ =>
            first_size ← gets (fun fs => get_image_size fs first);
            mret (default (800, 600) first_size, selected_files)
        | [] => sys_exit 2
        end
    | Group selected_wh =>
        selected_files ←
          lift (match groups !! selected_wh with
                | Some files => Ok files
                | None => Raise KeyError
                end);
        ordered ←
          gets (fun fs => sort_by_ctime fs selected_files (opt_reverse o));
        mret (selected_wh, ordered)
    end;
  (* Interactive user preference gathering *)
  prefs ←
    (if negb (opt_non_interactive o)
        && (negb (truthy (opt_fmt o)) || negb (truthy (opt_resize o)))
     then p ← lift (ask_user_preferences c (opt_non_interactive o));
          mret (Some p)
     else mret None);
  let final_fmt :=
    match prefs with
    | Some (interactive_fmt, _) =>
        if negb (truthy (opt_fmt o)) then Some interactive_fmt else opt_fmt o
    | None => opt_fmt o
    end in
  let resize_to :=
    match prefs with
    | Some (_, interactive_resize) =>
        if negb (truthy (opt_resize o)) then interactive_resize else None
    | None => None
    end in
  let final_fmt := if truthy final_fmt then default "" final_fmt else "gif" in
  resize_to ←
    (if truthy (opt_resize o) && negb (bool_decide (is_Some resize_to)) then
       match parse_whxhh (default "" (opt_resize o)) with
       | Ok wh => mret (Some wh)
       | Raise e =>
           _ ← lift (print_markup c ("[red]Invalid --resize value: "
                                     +:+ exn_message e +:+ "[/]"));
           sys_exit 2
       end
     else mret resize_to);
  out_path ←
    mkM (fun fs =>
           match unique_output_path fs (lower final_fmt) (opt_overwrite o) with
           | Some p => (Return p, fs)
           | None => (Cut, fs)
           end);
  if opt_dry_run o then sys_exit 0 else
  if negb (opt_non_interactive o) && negb (ask_confirm c) then sys_exit 0 else
  (* Load and process frames *)
  loaded ←
    gets (fun fs => load_frames_safely K fs ordered resize_to final_fmt);
  match loaded.1 with
  | Raise _ => sys_exit 3
  | Ok frames =>
      (* Save animation *)
      saved ←
        mkM (fun fs =>
               let '(r, fs') :=
                 save_animation K frames out_path (opt_fps o)
                                (lower final_fmt) (opt_quality o) fs in
               (Return r, fs'));
      match saved with
      | Raise _ => sys_exit 3
      | Ok _ => mkM (fun fs => run (lift (stat fs out_path)) fs)
      end
  end
  end.

End Main.
Import Main.

(** ** Sample values, used to run the definitions on concrete inputs *)
Module Sample.

(** Stand-in kernels: no rotation, a flat resampler, conversions that
    keep the pixel data, an encoder that succeeds. *)
Definition kernels : Pillow :=
  {| k_exif_transpose := fun _ => Ok None;
     k_resample := fun _ im sz =>
       Ok (replicate (Z.to_nat (sz.1 * sz.2)) (List.hd [] (pixels im)));
     k_convert := fun im _ => Ok (pixels im);
     k_quantize := fun im => Ok (pixels im);
     k_save := fun first _ => Ok first |}.

Definition image (m : string) (w h : Z) (px : Pixel) : Image :=
  {| mode := m; size := (w, h);
     pixels := replicate (Z.to_nat (w * h)) px; orientation := 1 |}.

Definition file (t : Z) (im : Image) : Entry :=
  {| is_file := true; st_ctime := Some t; decode := Ok im; encoded := None |}.

Definition broken (t : Z) : Entry :=
  {| is_file := true; st_ctime := Some t;
     decode := Raise UnidentifiedImageError; encoded := None |}.

(** Three 100x100 PNGs (one with alpha), one 50x50 PNG, one file that
    does not decode and one that is no image. *)
Definition folder : Folder :=
  {| folder_name := "flor";
     iterdir :=
       [ ("b.png", file 5 (image "RGB" 100 100 [10; 20; 30]));
         ("a.png", file 3 (image "RGBA" 100 100 [10; 20; 30; 0]));
         ("c.png", file 1 (image "RGB" 100 100 [1; 2; 3]));
         ("small.png", file 7 (image "RGB" 50 50 [9; 9; 9]));
         ("broken.png", broken 2);
         ("notes.txt", broken 4) ];
     clock := 10 |}.

Definition options (group : string) : Options :=
  {| opt_fmt := Some "gif"; opt_fps := 8; opt_resize := None;
     opt_group := Some group; opt_reverse := false; opt_overwrite := false;
     opt_quality := 80; opt_non_interactive := true; opt_dry_run := false;
     opt_verbose := false |}.

(** A console that renders whatever it is given, and one that, like
    the library, refuses a closing tag without an open one. *)
Definition plain (text : string) : result unit := Ok ().

Definition strict (text : string) : result unit :=
  match String.index 0 "[/b]" text with
  | Some _ => Raise (MarkupError "closing tag '[/b]' doesn't match any open tag")
  | None => Ok ()
  end.

Definition console : Console :=
  {| ask_group := "1"; ask_format := "gif"; ask_resize := "";
     ask_confirm := true; selection_inputs := []; print_markup := plain |}.

(** Three images of equal area. *)
Definition ties : Folder :=
  {| folder_name := "ties";
     iterdir :=
       [ ("tall.png", file 1 (image "RGB" 2 8 [1; 1; 1]));
         ("square.png", file 2 (image "RGB" 4 4 [2; 2; 2]));
         ("wide.png", file 3 (image "RGB" 8 2 [3; 3; 3])) ];
     clock := 4 |}.

(** A file-system root: a folder whose own name is empty, holding one
    image with an upper-case extension. *)
Definition root : Folder :=
  {| folder_name := "";
     iterdir := [ ("SHOT.PNG", file 1 (image "RGB" 1 1 [1; 2; 3])) ];
     clock := 2 |}.

(** Kernels whose resampler marks every pixel with the number of the
    filter it was given (0 for [NEAREST], 1 for [LANCZOS]). *)
Definition marking : Pillow :=
  {| k_exif_transpose := fun _ => Ok None;
     k_resample := fun f im sz =>
       Ok (replicate (Z.to_nat (sz.1 * sz.2))
             [match f with
              | NEAREST => 0 | LANCZOS => 1 | BILINEAR => 2
              | BICUBIC => 3 | BOX => 4 | HAMMING => 5
              end]);
     k_convert := fun im _ => Ok (pixels im);
     k_quantize := fun im => Ok (pixels im);
     k_save := fun first _ => Ok first |}.

(** A palette PNG and a true-colour PNG, both 2x2. *)
Definition palette : Folder :=
  {| folder_name := "icons";
     iterdir :=
       [ ("p.png", file 1 (image "P" 2 2 [200]));
         ("rgb.png", file 2 (image "RGB" 2 2 [200; 10; 10])) ];
     clock := 5 |}.

(** A run that asks for everything, and a user who answers the first
    question with [group]. *)
Definition ask : Options :=
  {| opt_fmt := None; opt_fps := 8; opt_resize := None;
     opt_group := None; opt_reverse := false; opt_overwrite := false;
     opt_quality := 80; opt_non_interactive := false; opt_dry_run := false;
     opt_verbose := false |}.

Definition answer (group : string) : Console :=
  {| ask_group := group; ask_format := "gif"; ask_resize := "";
     ask_confirm := true; selection_inputs := []; print_markup := strict |}.

(** A run with [--group], [--resize] and [--format gif]. *)
Definition resizing (group resize : string) (non_interactive : bool)
  : Options :=
  {| opt_fmt := Some "gif"; opt_fps := 8; opt_resize := Some resize;
     opt_group := Some group; opt_reverse := false; opt_overwrite := false;
     opt_quality := 80; opt_non_interactive := non_interactive;
     opt_dry_run := false; opt_verbose := false |}.

(** An ordinal of 4301 digits. *)
Definition long_ordinal : string :=
  string_of_list_ascii (repeat "1"%char 4301).

End Sample.

(** ** Vocabulary of the properties *)

(** The name tried in round [i] of the loop: [<base>_<i>.<ext>]. *)
Definition numbered (base_name ext : string) (i : nat) : Path :=
  base_name +:+ "_" +:+ str i +:+ "." +:+ ext.

(** The members of the group [key], in discovery order. *)
Definition members (fs : Folder) (paths : list Path) (key : Z * Z) : list Path :=
  filter (fun p => get_image_size fs p = Some key) paths.

(** [stat()] succeeds on [p]. *)
Definition stat_ok (fs : Folder) (p : Path) : Prop :=
  ∃ t, stat_ctime fs p = Ok t.

(** The frame a path contributes, if it loads. *)
Definition frame_of (K : Pillow) (fs : Folder) (resize_to : option (Z * Z))
    (target_format : string) (p : Path) : option Image :=
  match load_frame K fs resize_to target_format p with
  | Ok im => Some im
  | Raise _ => None
  end.

(** The frames of the paths that load, in the order of the paths. *)
Definition surviving (K : Pillow) (fs : Folder) (resize_to : option (Z * Z))
    (target_format : string) (paths : list Path) : list Image :=
  omap (frame_of K fs resize_to target_format) paths.

(** The number of paths that do not load. *)
Definition failures (K : Pillow) (fs : Folder) (resize_to : option (Z * Z))
    (target_format : string) (paths : list Path) : nat :=
  length (filter (fun p => frame_of K fs resize_to target_format p = None) paths).

(** What the loop logs: one record per path, in order. *)
Fixpoint loop_log (K : Pillow) (fs : Folder) (resize_to : option (Z * Z))
    (target_format : string) (total path_idx : nat) (paths : list Path)
  : list LogRecord :=
  match paths with
  | [] => []
  | p :: paths' =>
      match load_frame K fs resize_to target_format p with
      | Ok _ => LogDebug (path_idx + 1) total p
      | Raise error => LogError p error
      end :: loop_log K fs resize_to target_format total (S path_idx) paths'
  end.

(** The format-specific step of [load_frames_safely]. *)
Definition convert_for (K : Pillow) (target_format : string) (im : Image)
  : result Image :=
  if String.eqb (lower target_format) "gif" then _convert_for_gif K im
  else if String.eqb (lower target_format) "webp" then _convert_for_webp K im
  else _ensure_rgba K im.

(** One RGBA pixel composited over white, as the RGBA branch of
    [_convert_for_gif] does it. *)
Definition over_white (p : Pixel) : Pixel :=
  zip_with (blend8 (List.last p 0)) white (take 3 p).

(** The selector the run uses: [--group] when given, else the answer to
    the prompt (there is no prompt with [--non-interactive]). *)
Definition selector (o : Options) (c : Console) : option string :=
  if truthy (opt_group o) then opt_group o
  else if opt_non_interactive o then None else Some (ask_group c).

(** An ordinal that is not between 1 and the number of groups. *)
Definition out_of_range_index (script : Script)
    (groups : gmap (Z * Z) (list Path)) (g : string) : Prop :=
  isdigit g = true
  ∧ (has_interactive_mode script = true → g ≠ "0")
  ∧ ∀ gi, int g = Ok gi
          → ¬ (1 <= gi <= Z.of_nat (length (sizes_sorted groups))).

(** A well-formed WIDTHxHEIGHT key that no group has. *)
Definition unknown_key (groups : gmap (Z * Z) (list Path)) (g : string) : Prop :=
  isdigit g = false
  ∧ ∃ wh, parse_whxhh g = Ok wh ∧ groups !! wh = None.

(** The listing of [main], computed from the keys in the order the
    dict yields them. *)
Definition listing (fs : Folder) (paths : list Path) : list (Z * Z) :=
  sorted triple_leb area_key true (group_by_dimensions_keys fs paths).

(** The preferences [main] asks for, when prompts are allowed and the
    options leave the format or the resize target open. *)
Definition preferences (o : Options) (c : Console)
  : result (option (string * option (Z * Z))) :=
  if negb (opt_non_interactive o)
     && (negb (truthy (opt_fmt o)) || negb (truthy (opt_resize o)))
  then p ← ask_user_preferences c (opt_non_interactive o); Ok (Some p)
  else Ok None.

(** [out] is [src] resampled to [sz] by the kernel with filter [f]. *)
Definition resampled (K : Pillow) (f : Resampling) (src : Image)
    (sz : Z * Z) (out : Image) : Prop :=
  ∃ px, k_resample K f src sz = Ok px
        ∧ out = {| mode := mode src; size := sz; pixels := px;
                   orientation := orientation src |}.

(** The value of a call that returned. *)
Definition result_value {A} (r : result A) : option A :=
  match r with Ok a => Some a | Raise _ => None end.

(** How the prompt ends on a selector that names no group: by the
    usage error, unless the selector passes [isdigit] and [int()]
    refuses it; nothing catches that exception at the prompt. *)
Definition prompt_outcome {A} (g : string) : outcome A :=
  if isdigit g
  then match int g with Ok _ => Exited 2 | Raise e => Raised e end
  else Exited 2.

(** The text [f"{wh[0]}x{wh[1]}"] under which [main] prints the
    dimensions of a group (for dimensions that are not negative). *)
Definition dims_text (wh : Z * Z) : string :=
  str (Z.to_nat wh.1) +:+ "x" +:+ str (Z.to_nat wh.2).

(** A step of [main] that does not change the folder. *)
Definition readonly {A} (m : M A) : Prop := ∀ fs, (run m fs).2 = fs.

(** How a run of [main] can end: without a normal return and with the
    folder as it was, or (never in a dry run) with a normal return
    after writing one file at the path [unique_output_path] gave. *)
Definition main_result (o : Options) (fs : Folder)
    (x : outcome unit * Folder) : Prop :=
  (x.2 = fs ∧ x.1 ≠ Return ())
  ∨ (opt_dry_run o = false
     ∧ ∃ ext out e,
         unique_output_path fs ext (opt_overwrite o) = Some out
         ∧ is_file e = true
         ∧ x = (Return (), write fs out e)).

(** The format [main] settles on when it does not ask: [--format], or
    gif when that is missing. *)
Definition final_format (o : Options) : string :=
  if truthy (opt_fmt o) then default "" (opt_fmt o) else "gif".

(** The resize target [main] takes from [--resize] when it does not
    ask: none without the option, otherwise what [parse_whxhh] makes of
    it. *)
Definition resize_request (o : Options) : result (option (Z * Z)) :=
  if truthy (opt_resize o)
  then wh ← parse_whxhh (default "" (opt_resize o)); Ok (Some wh)
  else Ok None.

(** The modes a frame can have after the conversion for a target
    format: palette mode for gif, [RGB] or [RGBA] for webp, [RGBA] for
    anything else. *)
Definition frame_mode_ok (target_format m : string) : Prop :=
  if String.eqb (lower target_format) "gif" then m = "P"
  else if String.eqb (lower target_format) "webp" then m = "RGB" ∨ m = "RGBA"
  else m = "RGBA".

(** The paths that decode. *)
Definition decodable (fs : Folder) (paths : list Path) : list Path :=
  filter (fun p => is_Some (get_image_size fs p)) paths.

(** * Properties *)

(** ** Strings *)

Lemma append_cons c (s t : string) : String c s +:+ t = String c (s +:+ t).
Proof. reflexivity. Qed.

Lemma append_nil (t : string) : "" +:+ t = t.
Proof. reflexivity. Qed.

Lemma length_append (s t : string) :
  String.length (s +:+ t) = (String.length s + String.length t)%nat.
Proof.
  induction s as [|c s IH]; [done|].
  rewrite append_cons. simpl. by rewrite IH.
Qed.

Lemma append_assoc (s t u : string) : (s +:+ t) +:+ u = s +:+ t +:+ u.
Proof.
  induction s as [|c s IH]; [done|].
  rewrite !append_cons. by rewrite IH.
Qed.

Lemma append_cancel_r (s1 s2 t : string) : s1 +:+ t = s2 +:+ t → s1 = s2.
Proof.
  revert s2. induction s1 as [|c s1 IH]; intros [|d s2] H;
    rewrite ?append_cons, ?append_nil in H.
  - done.
  - apply (f_equal String.length) in H. simpl in H.
    rewrite length_append in H. lia.
  - apply (f_equal String.length) in H. simpl in H.
    rewrite length_append in H. lia.
  - injection H as -> H. f_equal. by apply IH.
Qed.

Lemma rfind_absent c s : contains c s = false → rfind c s = None.
Proof.
  induction s as [|a s IH]; simpl; [done|].
  intros [Ha Hs]%orb_false_iff. by rewrite IH, Ha.
Qed.

Lemma rfind_last_dot stem ext :
  contains "." ext = false →
  rfind "." (stem +:+ "." +:+ ext) = Some (String.length stem).
Proof.
  intros Hext. induction stem as [|a stem IH].
  - rewrite append_nil, append_cons, append_nil. simpl.
    by rewrite (rfind_absent _ _ Hext).
  - rewrite append_cons. simpl. by rewrite IH.
Qed.

Lemma slice_from_append stem t : slice_from (String.length stem) (stem +:+ t) = t.
Proof.
  induction stem as [|a stem IH]; [by destruct t|].
  rewrite append_cons. simpl. done.
Qed.

(** The suffix of [stem.ext] is [.ext], unless the stem is empty. *)
Lemma suffix_stem_ext stem ext :
  stem ≠ "" → ext ≠ "" → contains "." ext = false →
  suffix (stem +:+ "." +:+ ext) = "." +:+ ext.
Proof.
  intros Hstem Hext Hdot. unfold suffix, name.
  rewrite (rfind_last_dot _ _ Hdot), !length_append.
  assert (0 < String.length stem)%nat as H1 by (destruct stem; [done | simpl; lia]).
  assert (0 < String.length ext)%nat as H2 by (destruct ext; [done | simpl; lia]).
  simpl (String.length ".").
  replace ((0 <? String.length stem)%nat) with true
    by (symmetry; apply Nat.ltb_lt; lia).
  replace ((String.length stem <?
            String.length stem + (1 + String.length ext) - 1)%nat)
    with true by (symmetry; apply Nat.ltb_lt; lia).
  simpl andb. cbv iota.
  apply slice_from_append.
Qed.

Lemma suffix_no_stem ext : contains "." ext = false → suffix ("." +:+ ext) = "".
Proof.
  intros Hdot. unfold suffix, name.
  pose proof (rfind_last_dot "" ext Hdot) as H.
  rewrite append_nil in H. by rewrite H.
Qed.


(** [int] on a string of digits. *)

Lemma append_nil_r (s : string) : s +:+ "" = s.
Proof. induction s as [|c s IH]; [done|]. by rewrite append_cons, IH. Qed.

Lemma rev_app_rev_app s t u :
  String.rev_app (String.rev_app s t) u = String.rev_app t (s +:+ u).
Proof.
  revert t u. induction s as [|a s IH]; intros t u; [done|].
  simpl String.rev_app. by rewrite IH.
Qed.

Lemma rev_rev s : String.rev (String.rev s) = s.
Proof.
  unfold String.rev. rewrite rev_app_rev_app. simpl. apply append_nil_r.
Qed.

Lemma all_digits_rev_app s t :
  all_digits (String.rev_app s t) = all_digits s && all_digits t.
Proof.
  revert t. induction s as [|a s IH]; intros t; [done|].
  simpl. rewrite IH. simpl. by destruct (is_digit a), (all_digits s).
Qed.

Lemma is_digit_not_space c : is_digit c = true → is_space c = false.
Proof.
  unfold is_digit, is_space.
  intros [H1%N.leb_le H2%N.leb_le]%andb_true_iff.
  repeat (apply orb_false_iff; split);
    first [ apply andb_false_iff; rewrite !N.leb_gt; lia
          | apply N.eqb_neq; lia ].
Qed.

Lemma is_digit_not_space_int c : is_digit c = true → is_space_int c = false.
Proof.
  unfold is_digit, is_space_int.
  intros [H1%N.leb_le H2%N.leb_le]%andb_true_iff.
  repeat (apply orb_false_iff; split);
    first [ apply andb_false_iff; rewrite !N.leb_gt; lia
          | apply N.eqb_neq; lia ].
Qed.

Lemma lstrip_digits s : all_digits s = true → lstrip s = s.
Proof.
  destruct s as [|c s]; [done|]. simpl.
  intros [Hc _]%andb_true_iff. by rewrite (is_digit_not_space _ Hc).
Qed.

Lemma strip_digits s : all_digits s = true → strip s = s.
Proof.
  intros Hs. unfold strip. rewrite (lstrip_digits _ Hs).
  rewrite lstrip_digits; [apply rev_rev|].
  unfold String.rev. rewrite all_digits_rev_app, Hs. done.
Qed.

Lemma int_digits_all acc after s :
  all_digits s = true → 0 <= acc →
  s ≠ "" ∨ after = true →
  ∃ z, int_digits acc after s = Some z ∧ 0 <= z.
Proof.
  revert acc after. induction s as [|c s IH]; intros acc after Hs Hacc Hne.
  - destruct Hne as [Hne | Hafter]; [done|]. rewrite Hafter. by exists acc.
  - simpl in Hs. apply andb_true_iff in Hs as [Hc Hs]. simpl. rewrite Hc.
    apply IH; [done | | by right].
    unfold is_digit in Hc. apply andb_true_iff in Hc as [H1%N.leb_le _].
    unfold digit_value. lia.
Qed.

Lemma digit_run_digits s : all_digits s = true → digit_run s = (s, "").
Proof.
  induction s as [|c s IH]; [done|]. simpl.
  intros [Hc Hs]%andb_true_iff. by rewrite Hc, (IH Hs).
Qed.

Lemma count_digits_digits s :
  all_digits s = true → count_digits s = String.length s.
Proof.
  induction s as [|c s IH]; [done|]. simpl.
  intros [Hc Hs]%andb_true_iff. by rewrite Hc, (IH Hs).
Qed.

(** [int()] on a text of decimal digits: read as a number up to the
    digit limit, refused beyond it. *)
Lemma int_decimal s :
  all_digits s = true → s ≠ "" →
  ∃ z, int_digits 0 false s = Some z ∧ 0 <= z
       ∧ int s = if (int_max_str_digits <? String.length s)%nat
                 then Raise (exceeds_limit (String.length s)) else Ok z.
Proof.
  intros Hall Hne.
  destruct (int_digits_all 0 false s Hall) as (z & Hz & Hpos);
    [lia | by left |].
  exists z. split; [done|]. split; [done|].
  destruct s as [|c r]; [done|].
  assert (is_digit c = true) as Hc
    by (simpl in Hall; by apply andb_true_iff in Hall as [? _]).
  assert (Ascii.eqb c "+" = false ∧ Ascii.eqb c "-" = false) as [Hp Hm].
  { split; apply Ascii.eqb_neq; intros ->; discriminate Hc. }
  unfold int. cbn [lstrip_int]. rewrite (is_digit_not_space_int _ Hc).
  rewrite Hp, Hm. cbn [orb]. cbv zeta.
  rewrite (digit_run_digits _ Hall). cbn [fst snd all_space_int].
  by rewrite Hz, (count_digits_digits _ Hall).
Qed.

(** ** The folder *)

Lemma exists_true fs p : exists_ fs p = true ↔ p ∈ (iterdir fs).*1.
Proof. unfold exists_. by rewrite bool_decide_eq_true. Qed.

Lemma exists_false fs p : exists_ fs p = false ↔ p ∉ (iterdir fs).*1.
Proof. unfold exists_. by rewrite bool_decide_eq_false. Qed.

Lemma elem_of_write fs p e : (p, e) ∈ iterdir (write fs p e).
Proof.
  unfold write; simpl. destruct (exists_ fs p) eqn:Hex.
  - apply exists_true in Hex.
    apply list_elem_of_fmap in Hex as ([q e0] & -> & Hin).
    apply list_elem_of_fmap. exists (q, e0). simpl.
    by rewrite bool_decide_eq_true_2.
  - apply elem_of_app. right. by apply list_elem_of_singleton.
Qed.

Lemma names_write fs p e q :
  q ∈ (iterdir (write fs p e)).*1 ↔ q ∈ (iterdir fs).*1 ∨ q = p.
Proof.
  unfold write; simpl. destruct (exists_ fs p) eqn:Hex.
  - apply exists_true in Hex. split.
    + intros (pe & -> & ([r e0] & -> & Hin)%list_elem_of_fmap)%list_elem_of_fmap.
      simpl. case_bool_decide; simpl; [by right|].
      left. apply list_elem_of_fmap. by exists (r, e0).
    + intros [Hq | ->].
      * apply list_elem_of_fmap in Hq as ([r e0] & -> & Hin).
        apply list_elem_of_fmap. eexists. split; [|apply list_elem_of_fmap_2, Hin].
        simpl. by case_bool_decide.
      * apply list_elem_of_fmap in Hex as ([r e0] & -> & Hin).
        apply list_elem_of_fmap. eexists. split; [|apply list_elem_of_fmap_2, Hin].
        simpl. by case_bool_decide.
  - rewrite fmap_app, elem_of_app. simpl.
    by rewrite list_elem_of_singleton.
Qed.

Lemma exists_write_same fs p e : exists_ (write fs p e) p = true.
Proof. apply exists_true, names_write. by right. Qed.

Lemma exists_write_mono fs p e q :
  exists_ (write fs p e) q = false → exists_ fs q = false.
Proof.
  rewrite !exists_false, names_write. tauto.
Qed.

(** ** Output path *)

Lemma numbered_inj base_name ext i j :
  numbered base_name ext i = numbered base_name ext j → i = j.
Proof.
  unfold numbered. intros H.
  apply String.app_inj in H. rewrite !append_cons, !append_nil in H.
  injection H as H. apply append_cancel_r in H.
  by apply pretty_nat_inj in H.
Qed.

Lemma numbered_not_plain base_name ext i :
  numbered base_name ext i ≠ base_name +:+ "." +:+ ext.
Proof.
  unfold numbered. intros H. apply String.app_inj in H.
  rewrite !append_cons, !append_nil in H. discriminate H.
Qed.

Lemma first_unused_spec fs base_name ext fuel i :
  match first_unused fs base_name ext fuel i with
  | Some p =>
      ∃ j, (i ≤ j < i + fuel)%nat ∧ p = numbered base_name ext j
           ∧ exists_ fs p = false
           ∧ ∀ k, (i ≤ k < j)%nat → exists_ fs (numbered base_name ext k) = true
  | None =>
      ∀ k, (i ≤ k < i + fuel)%nat → exists_ fs (numbered base_name ext k) = true
  end.
Proof.
  revert i. induction fuel as [|fuel IH]; intros i; simpl.
  - intros k Hk. lia.
  - fold (numbered base_name ext i).
    destruct (exists_ fs (numbered base_name ext i)) eqn:Hex; simpl.
    + specialize (IH (S i)).
      destruct (first_unused fs base_name ext fuel (S i)) as [p|].
      * destruct IH as (j & Hj & -> & Hfree & Hbelow).
        exists j. repeat split; [lia | lia | done |].
        intros k Hk. destruct (decide (k = i)) as [->|]; [done|].
        apply Hbelow. lia.
      * intros k Hk. destruct (decide (k = i)) as [->|]; [done|].
        apply IH. lia.
    + exists i. repeat split; [lia | lia | done |]. intros k Hk. lia.
Qed.

(** The loop cannot use up its fuel: the names it tries are pairwise
    different, and the folder has fewer entries than it has rounds. *)
Lemma first_unused_total fs base_name ext :
  is_Some (first_unused fs base_name ext (S (length (iterdir fs))) 1).
Proof.
  pose proof (first_unused_spec fs base_name ext (S (length (iterdir fs))) 1) as H.
  destruct (first_unused fs base_name ext (S (length (iterdir fs))) 1); [by eexists|].
  exfalso.
  assert (numbered base_name ext <$> seq 1 (S (length (iterdir fs)))
          ⊆+ (iterdir fs).*1) as Hsub.
  { apply NoDup_submseteq.
    - apply NoDup_fmap_2; [|apply NoDup_seq].
      intros a b. apply numbered_inj.
    - intros x (k & -> & Hk%elem_of_seq)%list_elem_of_fmap.
      apply exists_true, H. lia. }
  apply submseteq_length in Hsub.
  rewrite !length_fmap, length_seq in Hsub. lia.
Qed.

Lemma unique_output_path_spec fs ext :
  ∃ p, unique_output_path fs ext false = Some p
       ∧ exists_ fs p = false
       ∧ (exists_ fs (folder_name fs +:+ "." +:+ ext) = false
          → p = folder_name fs +:+ "." +:+ ext)
       ∧ (exists_ fs (folder_name fs +:+ "." +:+ ext) = true
          → ∃ i, (1 ≤ i)%nat ∧ p = numbered (folder_name fs) ext i
                 ∧ ∀ k, (1 ≤ k < i)%nat
                        → exists_ fs (numbered (folder_name fs) ext k) = true).
Proof.
  unfold unique_output_path. cbv zeta.
  destruct (exists_ fs (folder_name fs +:+ "." +:+ ext)) eqn:Hout;
    cbn [orb negb].
  - pose proof (first_unused_spec fs (folder_name fs) ext
                  (S (length (iterdir fs))) 1) as Hspec.
    destruct (first_unused_total fs (folder_name fs) ext) as [p Hp].
    rewrite Hp in Hspec. destruct Hspec as (j & Hj & -> & Hfree & Hbelow).
    exists (numbered (folder_name fs) ext j).
    split; [done|]. split; [done|]. split; [done|].
    intros _. exists j. split; [lia|]. split; [done|]. done.
  - eexists. split; [done|]. split; [done|]. split; [done|]. done.
Qed.

(** C6: without overwrite, [unique_output_path] always returns, and what
    it returns is a name no entry of the folder has: [<dir>.<ext>] when
    that is unused, otherwise [<dir>_<i>.<ext>] for the least [i >= 1]
    that is unused.  Once the returned file has been written, a second
    call returns another name, again unused; when neither [<dir>.<ext>]
    nor [<dir>_1.<ext>] existed, the two calls give exactly these two
    names, in this order. *)
Theorem unique_output_path_fresh fs ext :
  ∃ p, unique_output_path fs ext false = Some p
       ∧ exists_ fs p = false
       ∧ (exists_ fs (folder_name fs +:+ "." +:+ ext) = false
          → p = folder_name fs +:+ "." +:+ ext)
       ∧ (exists_ fs (folder_name fs +:+ "." +:+ ext) = true
          → ∃ i, (1 ≤ i)%nat ∧ p = numbered (folder_name fs) ext i
                 ∧ ∀ k, (1 ≤ k < i)%nat
                        → exists_ fs (numbered (folder_name fs) ext k) = true)
       ∧ ∀ e, ∃ p2,
           unique_output_path (write fs p e) ext false = Some p2
           ∧ p2 ≠ p
           ∧ exists_ (write fs p e) p2 = false
           ∧ exists_ fs p2 = false
           ∧ (exists_ fs (folder_name fs +:+ "." +:+ ext) = false
              → exists_ fs (folder_name fs +:+ "_1." +:+ ext) = false
              → p = folder_name fs +:+ "." +:+ ext
                ∧ p2 = folder_name fs +:+ "_1." +:+ ext).
Proof.
  destruct (unique_output_path_spec fs ext) as (p & Hp & Hfree & Hplain & Hnum).
  exists p. do 4 (split; [done|]).
  intros e.
  destruct (unique_output_path_spec (write fs p e) ext)
    as (p2 & Hp2 & Hfree2 & Hplain2 & Hnum2).
  exists p2. split; [done|]. split; [|split; [done|split]].
  - intros ->. by rewrite exists_write_same in Hfree2.
  - by eapply exists_write_mono.
  - intros Hout H1. specialize (Hplain Hout). split; [done|]. subst p.
    simpl in Hnum2. rewrite exists_write_same in Hnum2.
    destruct (Hnum2 eq_refl) as (i & Hi & -> & Hbelow).
    destruct (decide (i = 1%nat)) as [->|Hne]; [done|].
    exfalso. specialize (Hbelow 1%nat ltac:(lia)).
    apply exists_true, names_write in Hbelow as [Hin | Heq].
    + apply exists_false in H1. by apply H1.
    + by apply numbered_not_plain in Heq.
Qed.

(** ** Discovery *)

Lemma elem_of_discover_images fs p :
  p ∈ discover_images fs
  ↔ ∃ e, (p, e) ∈ iterdir fs ∧ is_file e = true
         ∧ lower (suffix p) ∈ SUPPORTED_EXTS.
Proof.
  unfold discover_images. rewrite list_elem_of_fmap. split.
  - intros ([q e] & -> & [[Hfile Hext] Hin]%list_elem_of_filter). by exists e.
  - intros (e & Hin & Hfile & Hext). exists (p, e). split; [done|].
    by apply list_elem_of_filter.
Qed.

Lemma supported_exts_list x :
  x ∈ SUPPORTED_EXTS
  ↔ x ∈ [".jpg"; ".jpeg"; ".png"; ".bmp"; ".tif"; ".tiff"; ".webp"].
Proof.
  unfold SUPPORTED_EXTS.
  rewrite !elem_of_union, !elem_of_singleton, !elem_of_cons, elem_of_nil.
  tauto.
Qed.

Lemma webp_name_supported stem :
  stem ≠ "" → lower (suffix (stem +:+ ".webp")) ∈ SUPPORTED_EXTS.
Proof.
  intros Hstem. change (stem +:+ ".webp") with (stem +:+ "." +:+ "webp").
  rewrite (suffix_stem_ext stem "webp") by done.
  vm_compute. done.
Qed.

Lemma gif_name_unsupported stem :
  lower (suffix (stem +:+ ".gif")) ∉ SUPPORTED_EXTS.
Proof.
  destruct stem as [|a stem].
  - vm_compute. done.
  - change (String a stem +:+ ".gif") with (String a stem +:+ "." +:+ "gif").
    rewrite (suffix_stem_ext (String a stem) "gif") by done.
    vm_compute. done.
Qed.

(** The names [unique_output_path] can return: [<stem>.<ext>] with the
    folder name, possibly numbered, as the stem. *)
Lemma unique_output_path_name fs ext overwrite out :
  unique_output_path fs ext overwrite = Some out →
  ∃ stem, out = stem +:+ "." +:+ ext
          ∧ (folder_name fs ≠ "" → stem ≠ "").
Proof.
  unfold unique_output_path. cbv zeta.
  destruct (overwrite || negb (exists_ fs (folder_name fs +:+ "." +:+ ext))).
  - intros [= <-]. by exists (folder_name fs).
  - intros Hout.
    pose proof (first_unused_spec fs (folder_name fs) ext
                  (S (length (iterdir fs))) 1) as Hspec.
    rewrite Hout in Hspec. destruct Hspec as (j & _ & -> & _).
    exists (folder_name fs +:+ "_" +:+ str j). split.
    + unfold numbered. by rewrite !append_assoc.
    + intros Hne Hempty. destruct (folder_name fs); [done | discriminate].
Qed.

Lemma save_animation_written K frames out_path fps fmt quality fs fs' :
  save_animation K frames out_path fps fmt quality fs = (Ok (), fs') →
  ∃ e, is_file e = true ∧ fs' = write fs out_path e.
Proof.
  unfold save_animation. destruct frames as [|first rest]; [done|].
  cbv zeta. unfold save.
  destruct (String.eqb fmt "gif"); [|destruct (String.eqb fmt "webp")];
    try done;
    match goal with |- context [k_save K first ?a] =>
      destruct (k_save K first a); [|done] end;
    intros H; inversion H; eexists; (split; [|reflexivity]); reflexivity.
Qed.

(** C10: a path is discovered exactly when it is a regular file of the
    scanned folder whose lower-cased suffix is one of the seven allowed
    extensions.  So the [.webp] file a run has written is discovered by
    the next run when the folder has a name of its own (in a
    file-system root the output is called [.webp] and has no suffix),
    and the [.gif] file a run writes is never discovered, whatever the
    folder holds later. *)
Theorem discovery_by_extension_only :
  (∀ fs p,
     p ∈ discover_images fs
     ↔ ∃ e, (p, e) ∈ iterdir fs ∧ is_file e = true
            ∧ lower (suffix p)
              ∈ [".jpg"; ".jpeg"; ".png"; ".bmp"; ".tif"; ".tiff"; ".webp"])
  ∧ (∀ K fs frames fps quality overwrite out fs',
       folder_name fs ≠ "" →
       unique_output_path fs "webp" overwrite = Some out →
       save_animation K frames out fps "webp" quality fs = (Ok (), fs') →
       out ∈ discover_images fs')
  ∧ (∀ fs overwrite out later,
       unique_output_path fs "gif" overwrite = Some out →
       out ∉ discover_images later).
Proof.
  split; [|split].
  - intros fs p. rewrite elem_of_discover_images.
    f_equiv; intros e. by rewrite supported_exts_list.
  - intros K fs frames fps quality overwrite out fs' Hname Hout Hsave.
    apply save_animation_written in Hsave as (e & Hfile & ->).
    apply unique_output_path_name in Hout as (stem & -> & Hstem).
    apply elem_of_discover_images. exists e.
    split; [apply elem_of_write|]. split; [done|].
    apply webp_name_supported. by apply Hstem.
  - intros fs overwrite out later Hout.
    apply unique_output_path_name in Hout as (stem & -> & _).
    rewrite elem_of_discover_images. intros (e & _ & _ & Hext).
    by apply gif_name_unsupported in Hext.
Qed.

Lemma discovery_by_extension_only_witness :
  "flor.webp"
  ∈ discover_images
      (save_animation Sample.kernels [Sample.image "RGB" 1 1 [1; 2; 3]]
         "flor.webp" 8 "webp" 80 Sample.folder).2
  ∧ "SHOT.PNG" ∈ discover_images Sample.root.
Proof.
  split.
  - apply (proj1 (proj2 discovery_by_extension_only)
             Sample.kernels Sample.folder [Sample.image "RGB" 1 1 [1; 2; 3]]
             8 80 false "flor.webp").
    + discriminate.
    + reflexivity.
    + reflexivity.
  - apply (proj1 discovery_by_extension_only Sample.root "SHOT.PNG").
    eexists. split; [apply elem_of_cons; left; reflexivity|].
    split; [reflexivity|].
    apply (bool_decide_unpack _). vm_compute. exact I.
Defined.

(** Against C10 as first stated: in a folder without a name of its own
    (a file-system root) the output is called [.webp], a name that has
    no suffix, and the file the run has written is not among the images
    the next run discovers. *)
Lemma webp_output_at_root_not_rediscovered :
  unique_output_path Sample.root "webp" false = Some ".webp"
  ∧ (save_animation Sample.kernels [Sample.image "RGB" 1 1 [1; 2; 3]]
       ".webp" 8 "webp" 80 Sample.root).1 = Ok ()
  ∧ ".webp"
    ∉ discover_images
        (save_animation Sample.kernels [Sample.image "RGB" 1 1 [1; 2; 3]]
           ".webp" 8 "webp" 80 Sample.root).2.
Proof.
  split; [reflexivity|]. split; [reflexivity|].
  apply (bool_decide_unpack _). vm_compute. exact I.
Qed.

(** ** Encoding *)

(** C7: for a frame rate between 1 and 60, [save_animation] hands the
    encoder a per-frame duration of max(1, floor(1000 / fps))
    milliseconds, which is at least 1 and is 125 for fps = 8, together
    with loop count 0 (loop forever) and the remaining frames. *)
Theorem save_animation_duration K first rest out_path fps fmt quality fs :
  1 <= fps <= MAX_FPS →
  fmt = "gif" ∨ fmt = "webp" →
  ∃ args,
    save_animation K (first :: rest) out_path fps fmt quality fs
    = save K first out_path args fs
    ∧ duration args = Z.max 1 (1000 / fps)
    ∧ 1 <= duration args
    ∧ (fps = 8 → duration args = 125)
    ∧ loop args = 0
    ∧ save_all args = true
    ∧ append_images args = rest.
Proof.
  unfold MAX_FPS. intros Hfps Hfmt.
  assert (Z.max 1 (Z.quot 1000 (Z.max 1 fps)) = Z.max 1 (1000 / fps)) as Hd.
  { rewrite (Z.max_r 1 fps) by lia. rewrite Z.quot_div_nonneg by lia. done. }
  unfold save_animation. cbv zeta. rewrite Hd.
  destruct Hfmt as [-> | ->]; simpl String.eqb; cbv iota;
    eexists; (split; [reflexivity|]); simpl;
    (split; [done|]); (split; [lia|]);
    (split; [by intros ->|]); done.
Qed.

Lemma save_animation_duration_witness :
  ∃ args,
    save_animation Sample.kernels
      [Sample.image "P" 1 1 [0]; Sample.image "P" 1 1 [1]]
      "flor.gif" 8 "gif" 80 Sample.folder
    = save Sample.kernels (Sample.image "P" 1 1 [0]) "flor.gif" args
        Sample.folder
    ∧ duration args = Z.max 1 (1000 / 8)
    ∧ 1 <= duration args
    ∧ (8 = 8 → duration args = 125)
    ∧ loop args = 0
    ∧ save_all args = true
    ∧ append_images args = [Sample.image "P" 1 1 [1]].
Proof.
  apply (save_animation_duration Sample.kernels).
  - unfold MAX_FPS. lia.
  - by left.
Defined.

(** ** Grouping *)

Lemma group_fold_lookup (fs : Folder) (paths : list Path)
    (groups : gmap (Z * Z) (list Path)) (key : Z * Z) :
  foldl (fun groups p =>
           match get_image_size fs p with
           | None => groups
           | Some size => setdefault_append groups size p
           end) groups paths !! key
  = match members fs paths key with
    | [] => groups !! key
    | added => Some (default [] (groups !! key) ++ added)
    end.
Proof.
  revert groups. induction paths as [|p paths IH]; intros groups; [done|].
  simpl foldl. rewrite IH. unfold members. rewrite filter_cons.
  destruct (get_image_size fs p) as [sz|] eqn:Hsz.
  - unfold setdefault_append. destruct (decide (sz = key)) as [->|Hne].
    + rewrite decide_True by done. rewrite lookup_insert_eq. simpl.
      destruct (filter _ paths); simpl; [done|]. by rewrite <- app_assoc.
    + rewrite decide_False by congruence. by rewrite lookup_insert_ne.
  - by rewrite decide_False.
Qed.

Lemma group_by_dimensions_lookup fs paths key :
  group_by_dimensions fs paths !! key
  = match members fs paths key with [] => None | files => Some files end.
Proof.
  unfold group_by_dimensions. rewrite group_fold_lookup, lookup_empty.
  by destruct (members fs paths key).
Qed.

(** C1: the groups hold exactly the decodable paths.  A group is the
    list of the paths whose pixel size is its key, in discovery order;
    so every member has the key as its size, two members of a group
    have the same size, a path that does not decode is in no group,
    and a decodable path is in the group of its size. *)
Theorem group_by_dimensions_partition fs paths :
  (∀ key files,
     group_by_dimensions fs paths !! key = Some files →
     files ≠ [] ∧ files = members fs paths key)
  ∧ (∀ key files p,
       group_by_dimensions fs paths !! key = Some files →
       p ∈ files → p ∈ paths ∧ get_image_size fs p = Some key)
  ∧ (∀ key files p q,
       group_by_dimensions fs paths !! key = Some files →
       p ∈ files → q ∈ files → get_image_size fs p = get_image_size fs q)
  ∧ (∀ p,
       get_image_size fs p = None →
       ∀ key files,
         group_by_dimensions fs paths !! key = Some files → p ∉ files)
  ∧ (∀ p key,
       p ∈ paths → get_image_size fs p = Some key →
       ∃ files, group_by_dimensions fs paths !! key = Some files ∧ p ∈ files).
Proof.
  assert (∀ key files,
            group_by_dimensions fs paths !! key = Some files →
            files ≠ [] ∧ files = members fs paths key) as Hgroup.
  { intros key files. rewrite group_by_dimensions_lookup.
    destruct (members fs paths key); [done|]. by intros [= <-]. }
  assert (∀ key files p,
            group_by_dimensions fs paths !! key = Some files →
            p ∈ files → p ∈ paths ∧ get_image_size fs p = Some key) as Hmem.
  { intros key files p [_ ->]%Hgroup Hin.
    apply list_elem_of_filter in Hin. tauto. }
  split; [done|]. split; [done|]. split; [|split].
  - intros key files p q Hfiles Hp Hq.
    destruct (Hmem _ _ _ Hfiles Hp) as [_ ->].
    by destruct (Hmem _ _ _ Hfiles Hq) as [_ ->].
  - intros p Hnone key files Hfiles Hin.
    destruct (Hmem _ _ _ Hfiles Hin) as [_ Hsome]. congruence.
  - intros p key Hin Hsize. rewrite group_by_dimensions_lookup.
    assert (p ∈ members fs paths key) as Hp by by apply list_elem_of_filter.
    destruct (members fs paths key) as [|q files] eqn:Hm.
    + by apply elem_of_nil in Hp.
    + by eexists.
Qed.

Lemma group_by_dimensions_partition_witness :
  group_by_dimensions Sample.folder (discover_images Sample.folder) !! (100, 100)
  = Some ["b.png"; "a.png"; "c.png"]
  ∧ ("a.png" ∈ discover_images Sample.folder
     ∧ get_image_size Sample.folder "a.png" = Some (100, 100)).
Proof.
  assert (group_by_dimensions Sample.folder (discover_images Sample.folder)
            !! (100, 100) = Some ["b.png"; "a.png"; "c.png"]) as H
    by (vm_compute; reflexivity).
  split; [exact H|].
  apply (proj1 (proj2 (group_by_dimensions_partition Sample.folder
                         (discover_images Sample.folder)))
           (100, 100) ["b.png"; "a.png"; "c.png"] "a.png" H).
  apply elem_of_cons. right. apply elem_of_cons. by left.
Defined.

(** ** Sorting *)

Section SortedFacts.
Context {A K : Type} (leb : K → K → bool) (key : A → K).
Hypothesis leb_total : ∀ a b, leb a b = true ∨ leb b a = true.
Hypothesis leb_trans : ∀ a b c, leb a b = true → leb b c = true → leb a c = true.
Hypothesis leb_antisym : ∀ a b, leb a b = true → leb b a = true → a = b.

Lemma insert_by_perm x l : insert_by leb key x l ≡ₚ x :: l.
Proof.
  induction l as [|y l IH]; simpl; [done|].
  destruct (leb (key x) (key y)); [done|].
  rewrite IH. apply perm_swap.
Qed.

Lemma stable_sort_perm l : stable_sort leb key l ≡ₚ l.
Proof.
  induction l as [|x l IH]; simpl; [done|].
  by rewrite insert_by_perm, IH.
Qed.

Lemma insert_by_sorted x l :
  StronglySorted (key_le leb key) l → StronglySorted (key_le leb key) (insert_by leb key x l).
Proof.
  induction 1 as [|y l Hl IH Hy]; simpl.
  - repeat constructor.
  - destruct (leb (key x) (key y)) eqn:Hxy.
    + constructor; [by constructor|].
      constructor; [done|].
      eapply Forall_impl; [exact Hy|]. intros z Hz. by eapply leb_trans.
    + constructor; [done|].
      rewrite insert_by_perm. constructor; [|done].
      destruct (leb_total (key x) (key y)) as [H|H]; [congruence | done].
Qed.

Lemma stable_sort_sorted l : StronglySorted (key_le leb key) (stable_sort leb key l).
Proof.
  induction l as [|x l IH]; simpl; [constructor|].
  by apply insert_by_sorted.
Qed.

(** With pairwise different keys, a list has one sorted arrangement. *)
Lemma sorted_unique l1 l2 :
  StronglySorted (key_le leb key) l1 → StronglySorted (key_le leb key) l2 →
  l1 ≡ₚ l2 → NoDup (key <$> l1) → l1 = l2.
Proof.
  intros H1. revert l2.
  induction H1 as [|x l1 Hl1 IH Hx]; intros l2 H2 Hperm Hnd.
  { by apply Permutation_nil_l in Hperm. }
  destruct H2 as [|y l2 Hl2 Hy].
  { by apply Permutation_nil_r in Hperm. }
  apply NoDup_cons in Hnd as [Hfresh Hnd].
  assert (x = y) as <-.
  { destruct (list_elem_of_In (x :: l1) y) as [_ Hin].
    assert (y ∈ x :: l1) as [->|Hyl1]%elem_of_cons
      by (rewrite Hperm; apply elem_of_cons; by left); [done|].
    assert (x ∈ y :: l2) as [->|Hxl2]%elem_of_cons
      by (rewrite <- Hperm; apply elem_of_cons; by left); [done|].
    exfalso. apply Hfresh.
    rewrite Forall_forall in Hx, Hy.
    assert (key x = key y) as -> by (apply leb_antisym; [by apply Hx | by apply Hy]).
    by apply list_elem_of_fmap_2. }
  f_equal. apply IH; [done | by eapply Permutation_cons_inv | done].
Qed.

Lemma stable_sort_rev l :
  NoDup (key <$> l) → stable_sort leb key (rev l) = stable_sort leb key l.
Proof.
  intros Hnd. apply sorted_unique; try apply stable_sort_sorted.
  - by rewrite !stable_sort_perm, <- Permutation_rev.
  - by rewrite stable_sort_perm, <- Permutation_rev.
Qed.

(** Toggling [reverse] reverses the result when the keys differ. *)
Lemma sorted_reverse l :
  NoDup (key <$> l) → sorted leb key true l = rev (sorted leb key false l).
Proof. intros Hnd. unfold sorted. by rewrite stable_sort_rev. Qed.

Lemma sorted_perm reverse l : sorted leb key reverse l ≡ₚ l.
Proof.
  unfold sorted. destruct reverse; [|apply stable_sort_perm].
  by rewrite <- Permutation_rev, stable_sort_perm, <- Permutation_rev.
Qed.

(** With pairwise different keys the result does not depend on the
    order of the input. *)
Lemma sorted_perm_unique reverse l1 l2 :
  l1 ≡ₚ l2 → NoDup (key <$> l1) →
  sorted leb key reverse l1 = sorted leb key reverse l2.
Proof.
  intros Hperm Hnd. unfold sorted. destruct reverse.
  - f_equal. apply sorted_unique; try apply stable_sort_sorted.
    + by rewrite !stable_sort_perm, <- !Permutation_rev.
    + by rewrite stable_sort_perm, <- Permutation_rev.
  - apply sorted_unique; try apply stable_sort_sorted.
    + by rewrite !stable_sort_perm.
    + by rewrite stable_sort_perm.
Qed.

End SortedFacts.

Lemma StronglySorted_mono {A} (R1 R2 : A → A → Prop) l :
  (∀ a b, R1 a b → R2 a b) → StronglySorted R1 l → StronglySorted R2 l.
Proof.
  intros HR. induction 1 as [|x l Hl IH Hx]; constructor; [done|].
  eapply Forall_impl; [exact Hx | auto].
Qed.

Lemma Zleb_total a b : (a <=? b) = true ∨ (b <=? a) = true.
Proof. rewrite !Z.leb_le. lia. Qed.

Lemma Zleb_trans a b c : (a <=? b) = true → (b <=? c) = true → (a <=? c) = true.
Proof. rewrite !Z.leb_le. lia. Qed.

Lemma Zleb_antisym a b : (a <=? b) = true → (b <=? a) = true → a = b.
Proof. rewrite !Z.leb_le. lia. Qed.

Lemma string_leb_total a b : String.leb a b = true ∨ String.leb b a = true.
Proof.
  destruct (String.le_total a b) as [H|H]; [left | right];
    by apply Is_true_true.
Qed.

Lemma string_leb_trans a b c :
  String.leb a b = true → String.leb b c = true → String.leb a c = true.
Proof.
  intros H1%Is_true_true H2%Is_true_true. apply Is_true_true.
  change (String.le a c). by transitivity b.
Qed.

Lemma string_leb_antisym a b :
  String.leb a b = true → String.leb b a = true → a = b.
Proof.
  intros H1%Is_true_true H2%Is_true_true.
  by apply (anti_symm String.le).
Qed.

(** ** Ordering by creation time *)

Lemma sort_by_ctime_stat_ok fs paths reverse :
  Forall (stat_ok fs) paths →
  sort_by_ctime fs paths reverse = sorted Z.leb (ctime_key fs) reverse paths.
Proof.
  intros Hok. unfold sort_by_ctime.
  destruct (mapM _ paths) eqn:Hm; [done|].
  apply mapM_None in Hm. apply Exists_exists in Hm as (p & Hin & Hp).
  rewrite Forall_forall in Hok. destruct (Hok p Hin) as [t Ht].
  by rewrite Ht in Hp.
Qed.

Lemma sort_by_ctime_fallback fs paths reverse :
  ¬ Forall (stat_ok fs) paths →
  sort_by_ctime fs paths reverse
  = sorted String.leb (fun p => lower (name p)) reverse paths.
Proof.
  intros Hfail. unfold sort_by_ctime.
  destruct (mapM _ paths) eqn:Hm; [|done].
  exfalso. apply Hfail.
  assert (is_Some (mapM (λ p : Path,
            match stat_ctime fs p with Ok t => Some t | Raise _ => None end)
            paths)) as Hs by by eexists.
  apply mapM_is_Some in Hs.
  eapply Forall_impl; [exact Hs|]. intros p [t Hp]. unfold stat_ok.
  simpl in Hp. destruct (stat_ctime fs p); [by eexists | done].
Qed.

(** C5: when every [stat()] succeeds, [sort_by_ctime] orders the paths
    by ascending creation time, and with pairwise different creation
    times the result for [reverse=True] is exactly the reversal of the
    result for [reverse=False].  When a [stat()] fails, the paths are
    ordered by their lower-cased names instead, and the two results are
    again reversals of each other when these keys are pairwise
    different. *)
Theorem sort_by_ctime_reverse fs paths :
  (Forall (stat_ok fs) paths →
     StronglySorted (fun p q => ctime_key fs p <= ctime_key fs q)
                    (sort_by_ctime fs paths false)
     ∧ sort_by_ctime fs paths false ≡ₚ paths
     ∧ (NoDup (ctime_key fs <$> paths) →
        sort_by_ctime fs paths true = rev (sort_by_ctime fs paths false)))
  ∧ (¬ Forall (stat_ok fs) paths →
     StronglySorted
       (fun p q => String.leb (lower (name p)) (lower (name q)) = true)
       (sort_by_ctime fs paths false)
     ∧ sort_by_ctime fs paths false ≡ₚ paths
     ∧ (NoDup ((fun p => lower (name p)) <$> paths) →
        sort_by_ctime fs paths true = rev (sort_by_ctime fs paths false))).
Proof.
  split.
  - intros Hok. rewrite !sort_by_ctime_stat_ok by done. split; [|split].
    + eapply StronglySorted_mono;
        [|apply (stable_sort_sorted Z.leb (ctime_key fs) Zleb_total Zleb_trans)].
      intros p q. unfold key_le. by rewrite Z.leb_le.
    + apply sorted_perm.
    + apply (sorted_reverse Z.leb _ Zleb_total Zleb_trans Zleb_antisym).
  - intros Hfail. rewrite !sort_by_ctime_fallback by done. split; [|split].
    + apply (stable_sort_sorted String.leb _ string_leb_total string_leb_trans).
    + apply sorted_perm.
    + apply (sorted_reverse String.leb _ string_leb_total string_leb_trans
               string_leb_antisym).
Qed.

Lemma sort_by_ctime_reverse_witness :
  sort_by_ctime Sample.folder ["b.png"; "a.png"; "c.png"] false
  = ["c.png"; "a.png"; "b.png"]
  ∧ sort_by_ctime Sample.folder ["b.png"; "a.png"; "c.png"] true
    = rev (sort_by_ctime Sample.folder ["b.png"; "a.png"; "c.png"] false)
  ∧ sort_by_ctime Sample.folder ["B.png"; "gone.png"; "a.png"] true
    = rev (sort_by_ctime Sample.folder ["B.png"; "gone.png"; "a.png"] false).
Proof.
  split; [reflexivity|]. split.
  - apply (proj1 (sort_by_ctime_reverse Sample.folder ["b.png"; "a.png"; "c.png"])).
    + repeat (constructor; [eexists; reflexivity|]). constructor.
    + apply (bool_decide_unpack _). vm_compute. exact I.
  - apply (proj2 (sort_by_ctime_reverse Sample.folder
                    ["B.png"; "gone.png"; "a.png"])).
    + intros H. apply Forall_inv in H as [t H]. discriminate H.
    + apply (bool_decide_unpack _). vm_compute. exact I.
Defined.

(** ** Frame loading *)

Lemma loaded_cons K fs resize_to target_format p paths im :
  load_frame K fs resize_to target_format p = Ok im →
  surviving K fs resize_to target_format (p :: paths)
  = im :: surviving K fs resize_to target_format paths
  ∧ failures K fs resize_to target_format (p :: paths)
    = failures K fs resize_to target_format paths.
Proof.
  intros Hp.
  assert (frame_of K fs resize_to target_format p = Some im) as Hf
    by (unfold frame_of; by rewrite Hp).
  unfold surviving, failures. simpl omap. rewrite filter_cons, Hf.
  by rewrite decide_False.
Qed.

Lemma failed_cons K fs resize_to target_format p paths e :
  load_frame K fs resize_to target_format p = Raise e →
  surviving K fs resize_to target_format (p :: paths)
  = surviving K fs resize_to target_format paths
  ∧ failures K fs resize_to target_format (p :: paths)
    = S (failures K fs resize_to target_format paths).
Proof.
  intros Hp.
  assert (frame_of K fs resize_to target_format p = None) as Hf
    by (unfold frame_of; by rewrite Hp).
  unfold surviving, failures. simpl omap. rewrite filter_cons, Hf.
  by rewrite decide_True.
Qed.

Lemma load_loop_spec K fs resize_to target_format total path_idx paths
    frames failed_count log :
  load_loop K fs resize_to target_format total path_idx paths
            frames failed_count log
  = (frames ++ surviving K fs resize_to target_format paths,
     (failed_count + failures K fs resize_to target_format paths)%nat,
     log ++ loop_log K fs resize_to target_format total path_idx paths).
Proof.
  revert path_idx frames failed_count log.
  induction paths as [|p paths IH]; intros path_idx frames failed_count log.
  - simpl. unfold failures. simpl. by rewrite !app_nil_r, Nat.add_0_r.
  - simpl load_loop. simpl loop_log.
    destruct (load_frame K fs resize_to target_format p) as [im|e] eqn:Hp;
      rewrite IH.
    + destruct (loaded_cons K fs resize_to target_format p paths im Hp)
        as [-> ->].
      by rewrite <- !app_assoc.
    + destruct (failed_cons K fs resize_to target_format p paths e Hp)
        as [-> ->].
      rewrite <- !app_assoc. do 2 f_equal. lia.
Qed.

Lemma load_frames_safely_spec K fs paths resize_to target_format :
  load_frames_safely K fs paths resize_to target_format
  = match surviving K fs resize_to target_format paths with
    | [] =>
        (Raise no_valid_frames,
         loop_log K fs resize_to target_format (length paths) 0 paths)
    | frames =>
        (Ok frames,
         loop_log K fs resize_to target_format (length paths) 0 paths
         ++ (if (0 <? failures K fs resize_to target_format paths)%nat
             then [LogWarning (length frames)
                              (failures K fs resize_to target_format paths)]
             else []))
    end.
Proof.
  unfold load_frames_safely. rewrite load_loop_spec. simpl.
  destruct (surviving K fs resize_to target_format paths); [done|].
  destruct (0 <? failures K fs resize_to target_format paths)%nat;
    [done | by rewrite app_nil_r].
Qed.

Lemma surviving_failures_length K fs resize_to target_format paths :
  (length (surviving K fs resize_to target_format paths)
   + failures K fs resize_to target_format paths = length paths)%nat.
Proof.
  induction paths as [|p paths IH]; [done|].
  destruct (load_frame K fs resize_to target_format p) as [im|e] eqn:Hp.
  - destruct (loaded_cons K fs resize_to target_format p paths im Hp)
      as [-> ->]. simpl. lia.
  - destruct (failed_cons K fs resize_to target_format p paths e Hp)
      as [-> ->]. simpl. lia.
Qed.

Lemma elem_of_loop_log K fs resize_to target_format total path_idx paths p e :
  p ∈ paths → load_frame K fs resize_to target_format p = Raise e →
  LogError p e ∈ loop_log K fs resize_to target_format total path_idx paths.
Proof.
  revert path_idx. induction paths as [|q paths IH]; intros path_idx Hin Hp.
  - by apply elem_of_nil in Hin.
  - simpl. apply elem_of_cons in Hin as [<-|Hin].
    + rewrite Hp. apply elem_of_cons. by left.
    + apply elem_of_cons. right. by apply IH.
Qed.

(** C8: [load_frames_safely] keeps, in input order, the frame of every
    path that loads and counts every other path as a failure.  It
    raises the "no valid frames" error exactly when no frame is left;
    otherwise it returns the frames, having logged an error for each
    failed path and, when there is one, a warning with both counts. *)
Theorem load_frames_safely_skips_failures K fs paths resize_to target_format :
  (length (surviving K fs resize_to target_format paths)
   + failures K fs resize_to target_format paths = length paths)%nat
  ∧ ((load_frames_safely K fs paths resize_to target_format).1
       = Raise no_valid_frames
     ↔ surviving K fs resize_to target_format paths = [])
  ∧ (surviving K fs resize_to target_format paths ≠ [] →
     (load_frames_safely K fs paths resize_to target_format).1
       = Ok (surviving K fs resize_to target_format paths)
     ∧ ((0 < failures K fs resize_to target_format paths)%nat →
        LogWarning (length (surviving K fs resize_to target_format paths))
                   (failures K fs resize_to target_format paths)
        ∈ (load_frames_safely K fs paths resize_to target_format).2))
  ∧ (∀ p e,
       p ∈ paths → load_frame K fs resize_to target_format p = Raise e →
       LogError p e
       ∈ (load_frames_safely K fs paths resize_to target_format).2).
Proof.
  rewrite load_frames_safely_spec.
  split; [apply surviving_failures_length|].
  destruct (surviving K fs resize_to target_format paths) as [|im frames] eqn:Hs;
    simpl.
  - split; [done|]. split; [done|]. intros p e Hin Hp.
    by eapply elem_of_loop_log.
  - split; [done|]. split.
    + intros _. split; [done|]. intros Hpos.
      apply Nat.ltb_lt in Hpos. rewrite Hpos.
      apply elem_of_app. right. by apply list_elem_of_singleton.
    + intros p e Hin Hp. apply elem_of_app. left.
      by eapply elem_of_loop_log.
Qed.

Lemma load_frames_safely_skips_failures_witness :
  (load_frames_safely Sample.kernels Sample.folder
     ["c.png"; "broken.png"; "a.png"] None "webp").1
    = Ok (surviving Sample.kernels Sample.folder None "webp"
            ["c.png"; "broken.png"; "a.png"])
  ∧ ((0 < failures Sample.kernels Sample.folder None "webp"
            ["c.png"; "broken.png"; "a.png"])%nat →
     LogWarning 2 1
     ∈ (load_frames_safely Sample.kernels Sample.folder
          ["c.png"; "broken.png"; "a.png"] None "webp").2).
Proof.
  apply (proj1 (proj2 (proj2 (load_frames_safely_skips_failures Sample.kernels
           Sample.folder ["c.png"; "broken.png"; "a.png"] None "webp")))).
  vm_compute. discriminate.
Defined.

(** ** Frame conversion *)

Lemma bind_Ok {A B} (r : result A) (k : A → result B) (b : B) :
  r ≫= k = Ok b → ∃ a, r = Ok a ∧ k a = Ok b.
Proof. destruct r as [a|e]; [by exists a | done]. Qed.

Lemma paste_size K dst src mask out :
  paste K dst src mask = Ok out → size out = size dst ∧ mode out = mode dst.
Proof.
  unfold paste. intros (px & _ & [= <-])%bind_Ok. done.
Qed.

Lemma convert_size K im m out :
  PIL.convert K im m = Ok out → size out = size im ∧ mode out = m.
Proof. unfold PIL.convert. intros (px & _ & [= <-])%bind_Ok. done. Qed.

Lemma convert_P_adaptive_size K im out :
  convert_P_adaptive K im = Ok out → size out = size im ∧ mode out = "P".
Proof. unfold convert_P_adaptive. intros (px & _ & [= <-])%bind_Ok. done. Qed.

Lemma resize_size K im sz f out :
  resize K im sz f = Ok out → size out = sz ∧ mode out = mode im.
Proof.
  unfold resize. case_bool_decide as Hsame.
  - by intros [= <-].
  - by intros (px & _ & [= <-])%bind_Ok.
Qed.

Lemma _convert_for_gif_size K im out :
  _convert_for_gif K im = Ok out → size out = size im.
Proof.
  unfold _convert_for_gif.
  intros (flat & Hflat & [Hsize _]%convert_P_adaptive_size)%bind_Ok.
  rewrite Hsize. clear Hsize.
  destruct (bool_decide (mode im ∈ ["RGBA"; "LA"])); [|by injection Hflat as <-].
  destruct (String.eqb (mode im) "RGBA");
    by apply paste_size in Hflat as [-> _].
Qed.

Lemma _convert_for_webp_size K im out :
  _convert_for_webp K im = Ok out → size out = size im.
Proof.
  unfold _convert_for_webp.
  destruct (negb (bool_decide (mode im ∈ ["RGBA"; "RGB"]))).
  - by intros [-> _]%convert_size.
  - by intros [= <-].
Qed.

Lemma _ensure_rgba_size K im out :
  _ensure_rgba K im = Ok out → size out = size im.
Proof.
  unfold _ensure_rgba. destruct (negb (String.eqb (mode im) "RGBA")).
  - by intros [-> _]%convert_size.
  - by intros [= <-].
Qed.

Lemma convert_for_size K target_format im out :
  convert_for K target_format im = Ok out → size out = size im.
Proof.
  unfold convert_for.
  destruct (String.eqb (lower target_format) "gif");
    [apply _convert_for_gif_size|].
  destruct (String.eqb (lower target_format) "webp");
    [apply _convert_for_webp_size | apply _ensure_rgba_size].
Qed.

(** How a frame that loads came about. *)
Lemma load_frame_Ok K fs resize_to target_format p frame :
  load_frame K fs resize_to target_format p = Ok frame →
  ∃ raw transposed resized,
    open fs p = Ok raw
    ∧ k_exif_transpose K raw = Ok transposed
    ∧ match resize_to with
      | Some sz => resize K (default raw transposed) sz LANCZOS
      | None => Ok (default raw transposed)
      end = Ok resized
    ∧ convert_for K target_format resized = Ok frame.
Proof.
  unfold load_frame.
  intros (raw & Hraw & (transposed & Ht & H)%bind_Ok)%bind_Ok.
  apply bind_Ok in H as (resized & Hr & (out & Hc & [= <-])%bind_Ok).
  exists raw, transposed, resized.
  split; [done|]. split; [done|]. split; [|exact Hc].
  by destruct transposed.
Qed.

Lemma elem_of_surviving K fs resize_to target_format paths frame :
  frame ∈ surviving K fs resize_to target_format paths →
  ∃ p, p ∈ paths ∧ load_frame K fs resize_to target_format p = Ok frame.
Proof.
  unfold surviving. intros (p & Hin & Hf)%list_elem_of_omap.
  exists p. split; [done|]. unfold frame_of in Hf.
  destruct (load_frame K fs resize_to target_format p); by simplify_eq.
Qed.

(** C4: with a resize target (W, H), every frame [load_frames_safely]
    returns has exactly the size (W, H), whatever size its file had,
    and the format-specific conversion keeps that size.  The script
    asks for the LANCZOS filter every time, and that is the filter the
    kernel gets for a source of any mode but [1] and [P]; a bilevel or
    palette source is resampled with NEAREST, and a source that has
    the size already is not resampled at all. *)
Theorem load_frames_resize_filter K fs paths W H target_format frames :
  0 < W → 0 < H →
  (load_frames_safely K fs paths (Some (W, H)) target_format).1 = Ok frames →
  Forall
    (fun frame =>
       size frame = (W, H)
       ∧ ∃ p raw transposed resized,
           p ∈ paths
           ∧ open fs p = Ok raw
           ∧ k_exif_transpose K raw = Ok transposed
           ∧ size resized = (W, H)
           ∧ convert_for K target_format resized = Ok frame
           ∧ (size (default raw transposed) = (W, H) →
              resized = default raw transposed)
           ∧ (size (default raw transposed) ≠ (W, H) →
              mode (default raw transposed) ∉ ["1"; "P"] →
              resampled K LANCZOS (default raw transposed) (W, H) resized)
           ∧ (size (default raw transposed) ≠ (W, H) →
              mode (default raw transposed) ∈ ["1"; "P"] →
              resampled K NEAREST (default raw transposed) (W, H) resized))
    frames.
Proof.
  intros _ _. rewrite load_frames_safely_spec.
  destruct (surviving K fs (Some (W, H)) target_format paths)
    as [|im ims] eqn:Hs; [done|].
  simpl. intros [= <-]. rewrite <- Hs. clear Hs im ims.
  apply Forall_forall. intros frame (p & Hin & Hp)%elem_of_surviving.
  apply load_frame_Ok in Hp as (raw & transposed & resized & Hraw & Ht & Hr & Hc).
  pose proof (resize_size _ _ _ _ _ Hr) as [Hsize _].
  split.
  - apply convert_for_size in Hc. congruence.
  - exists p, raw, transposed, resized. split_and!; try done.
    + intros Hsame. unfold resize in Hr.
      rewrite bool_decide_eq_true_2 in Hr by done. by injection Hr as <-.
    + intros Hdiff Hmode. unfold resize, effective_filter in Hr.
      rewrite bool_decide_eq_false_2 in Hr by done.
      rewrite (bool_decide_eq_false_2 (mode _ ∈ _)) in Hr by done.
      apply bind_Ok in Hr as (px & Hpx & [= <-]). by exists px.
    + intros Hdiff Hmode. unfold resize, effective_filter in Hr.
      rewrite bool_decide_eq_false_2 in Hr by done.
      rewrite (bool_decide_eq_true_2 (mode _ ∈ _)) in Hr by done.
      apply bind_Ok in Hr as (px & Hpx & [= <-]). by exists px.
Qed.

(** A 2x2 palette PNG and a 2x2 true-colour PNG resized to 4x4: the
    frame of the first carries the mark of NEAREST, the frame of the
    second the mark of LANCZOS. *)
Lemma resize_palette_not_lanczos :
  surviving Sample.marking Sample.palette (Some (4, 4)) "webp"
    ["p.png"; "rgb.png"]
  = [ {| mode := "RGBA"; size := (4, 4); pixels := replicate 16 [0];
         orientation := 1 |};
      {| mode := "RGB"; size := (4, 4); pixels := replicate 16 [1];
         orientation := 1 |} ].
Proof. vm_compute. reflexivity. Qed.

Lemma load_frames_resize_filter_witness :
  Forall
    (fun frame =>
       size frame = (4, 4)
       ∧ ∃ p raw transposed resized,
           p ∈ ["p.png"; "rgb.png"]
           ∧ open Sample.palette p = Ok raw
           ∧ k_exif_transpose Sample.marking raw = Ok transposed
           ∧ size resized = (4, 4)
           ∧ convert_for Sample.marking "webp" resized = Ok frame
           ∧ (size (default raw transposed) = (4, 4) →
              resized = default raw transposed)
           ∧ (size (default raw transposed) ≠ (4, 4) →
              mode (default raw transposed) ∉ ["1"; "P"] →
              resampled Sample.marking LANCZOS (default raw transposed)
                (4, 4) resized)
           ∧ (size (default raw transposed) ≠ (4, 4) →
              mode (default raw transposed) ∈ ["1"; "P"] →
              resampled Sample.marking NEAREST (default raw transposed)
                (4, 4) resized))
    (surviving Sample.marking Sample.palette (Some (4, 4)) "webp"
       ["p.png"; "rgb.png"]).
Proof.
  apply (load_frames_resize_filter Sample.marking Sample.palette
           ["p.png"; "rgb.png"] 4 4 "webp").
  - lia.
  - lia.
  - rewrite load_frames_safely_spec.
    destruct (surviving Sample.marking Sample.palette (Some (4, 4)) "webp"
                ["p.png"; "rgb.png"]) eqn:Hs; [|done].
    exfalso. apply (f_equal length) in Hs. vm_compute in Hs. discriminate Hs.
Defined.

(** Against C3 as first stated: an RGB frame goes through
    [_convert_for_webp] unchanged, so it is not given an alpha band. *)
Lemma convert_for_webp_keeps_rgb :
  _convert_for_webp Sample.kernels (Sample.image "RGB" 1 1 [10; 20; 30])
  = Ok (Sample.image "RGB" 1 1 [10; 20; 30])
  ∧ mode (Sample.image "RGB" 1 1 [10; 20; 30]) = "RGB"
  ∧ mode (Sample.image "RGB" 1 1 [10; 20; 30]) ≠ "RGBA"
  ∧ pixels (Sample.image "RGB" 1 1 [10; 20; 30]) = [[10; 20; 30]].
Proof. split; [reflexivity|]. split; [reflexivity|]. split; [discriminate | reflexivity]. Qed.

(** C3 (as the code has it): for WebP a frame in [RGB] or [RGBA] mode
    is returned as it is, and a frame in any other mode is converted to
    [RGBA]; so the frame that comes out is in [RGB] or [RGBA] mode and
    has the size of the frame that went in. *)
Theorem convert_for_webp_modes K image :
  (mode image = "RGB" ∨ mode image = "RGBA" →
   _convert_for_webp K image = Ok image)
  ∧ (mode image ≠ "RGB" → mode image ≠ "RGBA" →
     _convert_for_webp K image = PIL.convert K image "RGBA")
  ∧ (∀ out,
       _convert_for_webp K image = Ok out →
       (mode out = "RGB" ∨ mode out = "RGBA") ∧ size out = size image).
Proof.
  unfold _convert_for_webp.
  destruct (bool_decide (mode image ∈ ["RGBA"; "RGB"])) eqn:Hm; simpl.
  - apply bool_decide_eq_true in Hm.
    rewrite !elem_of_cons, elem_of_nil in Hm.
    split; [done|]. split; [intros; tauto|].
    intros out [= <-]. split; [tauto | done].
  - apply bool_decide_eq_false in Hm.
    rewrite !elem_of_cons, elem_of_nil in Hm.
    split; [intros; tauto|]. split; [done|].
    intros out [Hsize ->]%convert_size. split; [by right | done].
Qed.

Lemma convert_for_webp_modes_witness :
  _convert_for_webp Sample.kernels (Sample.image "L" 2 1 [7])
  = PIL.convert Sample.kernels (Sample.image "L" 2 1 [7]) "RGBA"
  ∧ mode (Sample.image "L" 2 1 [7]) = "L".
Proof.
  split; [|reflexivity].
  apply (proj1 (proj2 (convert_for_webp_modes Sample.kernels
                         (Sample.image "L" 2 1 [7])))); discriminate.
Defined.

(** Dividing a multiple of 255 gives the factor back, over the range of
    a byte. *)
Lemma div255_exact d : 0 <= d <= 255 → div255 (d * 255) = d.
Proof.
  intros Hd.
  assert (Forall (fun d => div255 (d * 255) = d) (seqZ 0 256)) as Hall
    by (apply (bool_decide_unpack _); vm_compute; exact I).
  rewrite Forall_forall in Hall. apply Hall, elem_of_seqZ. lia.
Qed.

(** With mask value 0 the blend keeps the background, with 255 it takes
    the source. *)
Lemma blend8_transparent dst src : 0 <= dst <= 255 → blend8 0 dst src = dst.
Proof.
  intros Hd. unfold blend8.
  replace (dst * (255 - 0) + src * 0) with (dst * 255) by lia.
  by apply div255_exact.
Qed.

Lemma blend8_opaque dst src : 0 <= src <= 255 → blend8 255 dst src = src.
Proof.
  intros Hs. unfold blend8.
  replace (dst * (255 - 255) + src * 255) with (src * 255) by lia.
  by apply div255_exact.
Qed.

Lemma paste_pixels_fmap {A B} (bg : A) (f : B → A) (g : B → Pixel)
    (h : A * A → Pixel → A) (l : list B) (n : nat) :
  (length l ≤ n)%nat →
  zip_with h (zip (replicate n bg) (f <$> l)) (g <$> l)
  = (fun p => h (bg, f p) (g p)) <$> l.
Proof.
  revert n. induction l as [|p l IH]; intros n Hn; [by destruct n|].
  destruct n as [|n]; simpl in Hn; [lia|].
  simpl. f_equal. apply IH. lia.
Qed.

(** The RGBA branch: every pixel is blended with white by its own
    alpha, so a fully transparent pixel comes out white. *)
Lemma _convert_for_gif_RGBA K image :
  mode image = "RGBA" →
  (length (pixels image) ≤ Z.to_nat ((size image).1 * (size image).2))%nat →
  _convert_for_gif K image
  = convert_P_adaptive K
      {| mode := "RGB"; size := size image;
         pixels := over_white <$> pixels image; orientation := 1 |}.
Proof.
  intros Hmode Hlen. unfold _convert_for_gif. rewrite Hmode. simpl.
  unfold paste. simpl. rewrite Hmode. simpl.
  unfold colour_bytes. simpl.
  by rewrite (paste_pixels_fmap white (take 3) (fun p => [List.last p 0])
                (fun '(d, s) a => zip_with (blend8 (List.hd 0 a)) d s)).
Qed.

Lemma over_white_transparent r g b : over_white [r; g; b; 0] = white.
Proof.
  unfold over_white, white. simpl.
  by rewrite !blend8_transparent by lia.
Qed.

(** The LA branch: the frame is pasted without a mask, so every pixel
    of the white background is overwritten by the grey value of the
    frame, whatever its alpha. *)
Lemma _convert_for_gif_LA K image :
  mode image = "LA" →
  _convert_for_gif K image
  = convert_P_adaptive K
      {| mode := "RGB"; size := size image;
         pixels := (fun p => [List.hd 0 p; List.hd 0 p; List.hd 0 p])
                   <$> pixels image;
         orientation := 1 |}.
Proof.
  intros Hmode. unfold _convert_for_gif. rewrite Hmode. simpl.
  unfold paste. simpl. rewrite Hmode. simpl. done.
Qed.

(** Frames in any other mode reach the quantiser as they are. *)
Lemma _convert_for_gif_other K image :
  mode image ≠ "RGBA" → mode image ≠ "LA" →
  _convert_for_gif K image = convert_P_adaptive K image.
Proof.
  intros H1 H2. unfold _convert_for_gif.
  rewrite bool_decide_eq_false_2; [done|].
  rewrite !elem_of_cons, elem_of_nil. tauto.
Qed.

(** C2 (where the code departs from it): a 1x1 [LA] frame whose only
    pixel is fully transparent (L = 0, A = 0) reaches the quantiser as
    one black [RGB] pixel, not as the white of the background; the same
    pixel in an [RGBA] frame does come out white.  A [PA] frame, which
    [has_alpha_channel] counts as having transparency, is quantised
    without being flattened at all. *)
Theorem convert_for_gif_LA_transparent_not_white K :
  _convert_for_gif K
    {| mode := "LA"; size := (1, 1); pixels := [[0; 0]]; orientation := 1 |}
  = convert_P_adaptive K
      {| mode := "RGB"; size := (1, 1); pixels := [[0; 0; 0]];
         orientation := 1 |}
  ∧ [0; 0; 0] ≠ white
  ∧ _convert_for_gif K
      {| mode := "RGBA"; size := (1, 1); pixels := [[0; 0; 0; 0]];
         orientation := 1 |}
    = convert_P_adaptive K
        {| mode := "RGB"; size := (1, 1); pixels := [white];
           orientation := 1 |}
  ∧ ∀ px,
      _convert_for_gif K
        {| mode := "PA"; size := (1, 1); pixels := px; orientation := 1 |}
      = convert_P_adaptive K
          {| mode := "PA"; size := (1, 1); pixels := px; orientation := 1 |}.
Proof.
  split; [by rewrite _convert_for_gif_LA|]. split; [done|]. split.
  - rewrite _convert_for_gif_RGBA; [|done|simpl; lia]. done.
  - intros px. by apply _convert_for_gif_other.
Qed.

(** ** Group selection *)

Lemma triple_leb_le a b :
  triple_leb a b = true
  ↔ a.1.1 < b.1.1
    ∨ (a.1.1 = b.1.1 ∧ (a.1.2 < b.1.2 ∨ (a.1.2 = b.1.2 ∧ a.2 <= b.2))).
Proof.
  destruct a as [[a1 a2] a3], b as [[b1 b2] b3]. unfold triple_leb. simpl.
  rewrite !orb_true_iff, !andb_true_iff, !orb_true_iff, !andb_true_iff.
  rewrite !Z.ltb_lt, !Z.eqb_eq, Z.leb_le. tauto.
Qed.

Lemma triple_leb_total a b : triple_leb a b = true ∨ triple_leb b a = true.
Proof. rewrite !triple_leb_le. lia. Qed.

Lemma triple_leb_trans a b c :
  triple_leb a b = true → triple_leb b c = true → triple_leb a c = true.
Proof. rewrite !triple_leb_le. lia. Qed.

Lemma StronglySorted_rev {A} (R : A → A → Prop) l :
  StronglySorted R l → StronglySorted (flip R) (rev l).
Proof.
  induction 1 as [|x l Hl IH Hx]; simpl; [constructor|].
  apply StronglySorted_app_2; [| done | repeat constructor].
  intros a b Ha Hb. apply list_elem_of_singleton in Hb as ->.
  rewrite Forall_forall in Hx. apply Hx.
  by apply list_elem_of_In, in_rev, list_elem_of_In.
Qed.

(** The listing holds every group key once, largest area first. *)
Lemma sizes_sorted_listing (groups : gmap (Z * Z) (list Path)) :
  StronglySorted (fun a b => b.1 * b.2 <= a.1 * a.2) (sizes_sorted groups)
  ∧ (∀ wh, wh ∈ sizes_sorted groups ↔ is_Some (groups !! wh))
  ∧ length (sizes_sorted groups) = base.size groups.
Proof.
  unfold sizes_sorted, sorted. split; [|split].
  - eapply StronglySorted_mono;
      [|apply StronglySorted_rev,
          (stable_sort_sorted triple_leb area_key triple_leb_total
             triple_leb_trans)].
    intros a b. unfold flip, key_le, area_key. rewrite triple_leb_le.
    simpl. lia.
  - intros wh.
    rewrite <- (Permutation_rev (stable_sort _ _ _)), stable_sort_perm,
      <- Permutation_rev.
    by rewrite elem_of_elements, elem_of_dom.
  - rewrite length_rev.
    rewrite (Permutation_length (stable_sort_perm _ _ _)), length_rev.
    by rewrite <- size_dom.
Qed.

Lemma run_bind {A B} (m : M A) (k : A → M B) fs :
  run (m ≫= k) fs
  = match run m fs with
    | (Return a, fs') => run (k a) fs'
    | (Raised e, fs') => (Raised e, fs')
    | (Exited c, fs') => (Exited c, fs')
    | (Cut, fs') => (Cut, fs')
    end.
Proof. reflexivity. Qed.

Lemma not_interactive_choice script g :
  (has_interactive_mode script = true → g ≠ "0") →
  has_interactive_mode script && String.eqb g "0" = false.
Proof.
  intros H. destruct (has_interactive_mode script); [|done]. simpl.
  apply String.eqb_neq. by apply H.
Qed.

Lemma in_range_false gi (sizes : list (Z * Z)) :
  ¬ (1 <= gi <= Z.of_nat (length sizes)) → in_range gi sizes = false.
Proof.
  intros H. unfold in_range. apply andb_false_iff.
  rewrite !Z.leb_gt. lia.
Qed.

Lemma resolve_bad_selector script groups g :
  out_of_range_index script groups g ∨ unknown_key groups g →
  (∃ e, resolve_group script g groups = Raise e)
  ∧ ∀ c fs, run (resolve_choice c script g groups) fs = (prompt_outcome g, fs).
Proof.
  intros [(Hdigit & Hzero & Hrange) | (Hdigit & wh & Hparse & Hkey)].
  - unfold resolve_group, resolve_choice, prompt_outcome.
    rewrite (not_interactive_choice _ _ Hzero), Hdigit.
    destruct (int g) as [gi|e] eqn:Hint.
    + specialize (Hrange gi eq_refl). split.
      * simpl. rewrite (in_range_false _ _ Hrange). by eexists.
      * intros c fs. rewrite run_bind. simpl.
        by rewrite (in_range_false _ _ Hrange).
    + split; [by eexists | done].
  - assert (has_interactive_mode script && String.eqb g "0" = false) as Hz.
    { apply not_interactive_choice. by intros _ ->. }
    unfold resolve_group, resolve_choice, prompt_outcome.
    rewrite Hz, Hdigit, Hparse. simpl.
    rewrite bool_decide_eq_false_2 by (rewrite Hkey; by intros [? ?]).
    split; [by eexists | done].
Qed.

Lemma resolve_group_index script groups g gi :
  isdigit g = true →
  (has_interactive_mode script = true → g ≠ "0") →
  int g = Ok gi →
  1 <= gi <= Z.of_nat (length (sizes_sorted groups)) →
  ∃ wh, sizes_sorted groups !! Z.to_nat (gi - 1) = Some wh
        ∧ resolve_group script g groups = Ok (Group wh).
Proof.
  intros Hdigit Hzero Hint Hrange.
  destruct (lookup_lt_is_Some_2 (sizes_sorted groups) (Z.to_nat (gi - 1)))
    as [wh Hwh]; [lia|].
  exists wh. split; [done|]. unfold resolve_group.
  rewrite (not_interactive_choice _ _ Hzero), Hdigit, Hint. simpl.
  unfold in_range.
  replace (1 <=? gi) with true by (symmetry; apply Z.leb_le; lia).
  replace (gi <=? Z.of_nat (length (sizes_sorted groups))) with true
    by (symmetry; apply Z.leb_le; lia).
  simpl. unfold index. by rewrite Hwh.
Qed.

Lemma resolve_group_key script groups g wh :
  isdigit g = false →
  parse_whxhh g = Ok wh →
  is_Some (groups !! wh) →
  resolve_group script g groups = Ok (Group wh).
Proof.
  intros Hdigit Hparse Hkey. unfold resolve_group.
  assert (has_interactive_mode script && String.eqb g "0" = false) as ->.
  { apply not_interactive_choice. by intros _ ->. }
  rewrite Hdigit, Hparse. simpl. by rewrite bool_decide_eq_true_2.
Qed.

Lemma main_bad_selector script K o c fs g :
  discover_images fs ≠ [] →
  group_by_dimensions fs (discover_images fs) ≠ ∅ →
  selector o c = Some g →
  out_of_range_index script (group_by_dimensions fs (discover_images fs)) g
  ∨ unknown_key (group_by_dimensions fs (discover_images fs)) g →
  run (main script K o c) fs
  = (if truthy (opt_group o) then Exited 2 else prompt_outcome g, fs).
Proof.
  intros Himg Hgrp Hsel Hbad.
  apply resolve_bad_selector in Hbad as [[e Hflag] Hprompt].
  unfold main. rewrite run_bind. cbn [run gets].
  destruct (discover_images fs) as [|p ps] eqn:Hd; [done|].
  rewrite run_bind. cbn [run gets].
  rewrite bool_decide_eq_false_2 by done.
  rewrite run_bind. unfold selector in Hsel.
  destruct (truthy (opt_group o)) eqn:Ht.
  - rewrite Hsel. change (default "" (Some g)) with g. by rewrite Hflag.
  - destruct (opt_non_interactive o); [done|].
    injection Hsel as Hsel. rewrite Hsel, Hprompt.
    unfold prompt_outcome. destruct (isdigit g); [|done].
    by destruct (int g).
Qed.

(** C9: the groups are listed largest area first; an ordinal between 1
    and the number of groups selects the group at that place of the
    listing, and a WIDTHxHEIGHT key selects the group with that key.
    Given with [--group], an ordinal outside that range, or a key that
    no group has, makes [main] exit with code 2.  Typed at the prompt
    it does the same, except for an ordinal that [int()] refuses (one
    of more than 4300 digits): there the [ValueError] of [int()] ends
    the run, because the prompt converts the answer outside any
    [try].  In each case the folder is then as it was. *)
Theorem invalid_group_selector_outcome script K o c fs g :
  discover_images fs ≠ [] →
  group_by_dimensions fs (discover_images fs) ≠ ∅ →
  selector o c = Some g →
  (StronglySorted (fun a b => b.1 * b.2 <= a.1 * a.2)
     (sizes_sorted (group_by_dimensions fs (discover_images fs)))
   ∧ ∀ wh, wh ∈ sizes_sorted (group_by_dimensions fs (discover_images fs))
           ↔ is_Some (group_by_dimensions fs (discover_images fs) !! wh))
  ∧ (∀ gi,
       isdigit g = true →
       (has_interactive_mode script = true → g ≠ "0") →
       int g = Ok gi →
       1 <= gi <= Z.of_nat (length (sizes_sorted
                              (group_by_dimensions fs (discover_images fs)))) →
       ∃ wh,
         sizes_sorted (group_by_dimensions fs (discover_images fs))
           !! Z.to_nat (gi - 1) = Some wh
         ∧ resolve_group script g (group_by_dimensions fs (discover_images fs))
           = Ok (Group wh))
  ∧ (∀ wh,
       isdigit g = false →
       parse_whxhh g = Ok wh →
       is_Some (group_by_dimensions fs (discover_images fs) !! wh) →
       resolve_group script g (group_by_dimensions fs (discover_images fs))
       = Ok (Group wh))
  ∧ (out_of_range_index script (group_by_dimensions fs (discover_images fs)) g
     ∨ unknown_key (group_by_dimensions fs (discover_images fs)) g →
     (truthy (opt_group o) = true →
      run (main script K o c) fs = (Exited 2, fs))
     ∧ (truthy (opt_group o) = false →
        (∀ e, isdigit g = true → int g = Raise e →
              run (main script K o c) fs = (Raised e, fs))
        ∧ ((isdigit g = true → is_Some (result_value (int g))) →
           run (main script K o c) fs = (Exited 2, fs)))).
Proof.
  intros Himg Hgrp Hsel.
  destruct (sizes_sorted_listing (group_by_dimensions fs (discover_images fs)))
    as (Hsorted & Hkeys & _).
  split; [done|]. split; [|split].
  - intros gi. apply resolve_group_index.
  - intros wh. apply resolve_group_key.
  - intros Hbad. rewrite (main_bad_selector script K o c fs g) by done.
    split; [by intros ->|]. intros ->. unfold prompt_outcome. split.
    + by intros e -> ->.
    + intros Hreads. destruct (isdigit g); [|done].
      destruct (Hreads eq_refl) as [gi Hgi].
      by destruct (int g).
Qed.

Lemma invalid_group_selector_outcome_witness :
  run (main flor Sample.kernels (Sample.options "99") Sample.console)
      Sample.folder
  = (Exited 2, Sample.folder)
  ∧ run (main soul Sample.kernels (Sample.options "640x480") Sample.console)
        Sample.folder
    = (Exited 2, Sample.folder)
  ∧ run (main flor Sample.kernels Sample.ask
           (Sample.answer Sample.long_ordinal))
        Sample.folder
    = (Raised (exceeds_limit 4301), Sample.folder).
Proof.
  split; [|split].
  - refine (proj1 (proj2 (proj2 (proj2
              (invalid_group_selector_outcome flor Sample.kernels
                 (Sample.options "99") Sample.console Sample.folder "99"
                 _ _ _))) _) _);
      [discriminate | by vm_compute | reflexivity | | reflexivity].
    left. split; [reflexivity|]. split; [discriminate|].
    intros gi [= <-]. vm_compute. intros [_ H]. by apply H.
  - refine (proj1 (proj2 (proj2 (proj2
              (invalid_group_selector_outcome soul Sample.kernels
                 (Sample.options "640x480") Sample.console Sample.folder
                 "640x480" _ _ _))) _) _);
      [discriminate | by vm_compute | reflexivity | | reflexivity].
    right. split; [reflexivity|].
    exists (640, 480). split; reflexivity.
  - refine (proj1 (proj2 (proj2 (proj2 (proj2
              (invalid_group_selector_outcome flor Sample.kernels Sample.ask
                 (Sample.answer Sample.long_ordinal) Sample.folder
                 Sample.long_ordinal _ _ _))) _) _) _ _ _);
      [discriminate | by vm_compute | reflexivity | | reflexivity
       | by vm_compute | by vm_compute].
    left. split; [by vm_compute|]. split; [by vm_compute|].
    intros gi Hgi. vm_compute in Hgi. discriminate Hgi.
Defined.

(** * Further properties of the scripts *)

(** ** Dimension strings *)

Lemma pretty_digit d :
  (d < 10)%N →
  is_digit (pretty_N_char d) = true
  ∧ digit_value (pretty_N_char d) = Z.of_N d
  ∧ Ascii.eqb (pretty_N_char d) "x" = false.
Proof.
  intros Hd.
  assert (Forall (fun d => is_digit (pretty_N_char d) = true
                           ∧ digit_value (pretty_N_char d) = Z.of_N d
                           ∧ Ascii.eqb (pretty_N_char d) "x" = false)
                 (N.of_nat <$> seq 0 10)) as Hall
    by (repeat constructor).
  rewrite Forall_forall in Hall. apply Hall.
  apply list_elem_of_fmap. exists (N.to_nat d).
  split; [by rewrite N2Nat.id | apply elem_of_seq; lia].
Qed.

Lemma all_digits_pretty_go x s :
  all_digits (pretty_N_go x s) = all_digits s.
Proof.
  revert s. induction (N.lt_wf_0 x) as [x _ IH]; intros s.
  destruct (decide (x = 0)%N) as [->|Hx]; [done|].
  rewrite pretty_N_go_step by lia.
  rewrite IH by (apply N.div_lt; lia). simpl.
  destruct (pretty_digit (x `mod` 10)) as (-> & _ & _);
    [by apply N.mod_lt | done].
Qed.

Lemma contains_x_pretty_go x s :
  contains "x" (pretty_N_go x s) = contains "x" s.
Proof.
  revert s. induction (N.lt_wf_0 x) as [x _ IH]; intros s.
  destruct (decide (x = 0)%N) as [->|Hx]; [done|].
  rewrite pretty_N_go_step by lia.
  rewrite IH by (apply N.div_lt; lia). simpl.
  destruct (pretty_digit (x `mod` 10)) as (_ & _ & ->);
    [by apply N.mod_lt | done].
Qed.

Lemma int_digits_pretty_go x b s :
  (0 < x)%N →
  int_digits 0 b (pretty_N_go x s) = int_digits (Z.of_N x) true s.
Proof.
  revert b s. induction (N.lt_wf_0 x) as [x _ IH]; intros b s Hx.
  rewrite pretty_N_go_step by done.
  destruct (pretty_digit (x `mod` 10)) as (Hd & Hv & _);
    [by apply N.mod_lt|].
  pose proof (N.div_mod x 10 ltac:(done)) as Hdm.
  assert (x `div` 10 < x)%N as Hlt by (by apply N.div_lt).
  revert Hd Hv Hdm Hlt IH.
  generalize (x `mod` 10)%N as r. generalize (x `div` 10)%N as q.
  intros q r Hd Hv Hdm Hlt IH.
  destruct (decide (q = 0)%N) as [H0|H0].
  - rewrite H0, pretty_N_go_0. simpl. rewrite Hd, Hv. f_equal. lia.
  - rewrite (IH q Hlt) by lia. simpl. rewrite Hd, Hv. f_equal. lia.
Qed.

Lemma str_digits (n : nat) :
  all_digits (str n) = true ∧ str n ≠ "" ∧ contains "x" (str n) = false
  ∧ int_digits 0 false (str n) = Some (Z.of_nat n).
Proof.
  unfold str, pretty, pretty_nat, pretty, pretty_N.
  destruct (decide (N.of_nat n = 0)%N) as [H0|H0].
  - assert (n = 0%nat) as -> by (destruct n; [done | discriminate H0]).
    done.
  - apply N.neq_0_lt_0 in H0.
    rewrite all_digits_pretty_go, contains_x_pretty_go.
    split; [done|]. split; [|split; [done|]].
    + intros Hempty.
      pose proof (int_digits_pretty_go (N.of_nat n) false "" H0) as H.
      by rewrite Hempty in H.
    + rewrite int_digits_pretty_go by done. simpl. by rewrite nat_N_Z.
Qed.

Lemma lower_digits s : all_digits s = true → lower s = s.
Proof.
  induction s as [|c s IH]; [done|]. simpl.
  intros [Hc Hs]%andb_true_iff. rewrite IH by done. f_equal.
  unfold is_digit in Hc. apply andb_true_iff in Hc as [H1%N.leb_le H2%N.leb_le].
  unfold ascii_lower.
  replace ((65 <=? N_of_ascii c)%N) with false
    by (symmetry; apply N.leb_gt; lia).
  replace ((192 <=? N_of_ascii c)%N) with false
    by (symmetry; apply N.leb_gt; lia).
  done.
Qed.

Lemma lower_append s t : lower (s +:+ t) = lower s +:+ lower t.
Proof.
  induction s as [|c s IH]; [done|].
  rewrite append_cons. simpl. by rewrite IH.
Qed.

Lemma split_once_append c s t :
  contains c s = false → split_once c (s +:+ String c t) = Some (s, t).
Proof.
  induction s as [|a s IH]; intros Hs.
  - rewrite append_nil. simpl. by rewrite Ascii.eqb_refl.
  - rewrite append_cons. simpl in *.
    apply orb_false_iff in Hs as [Ha Hs]. by rewrite Ha, IH.
Qed.

Lemma contains_append c s t :
  contains c (s +:+ t) = contains c s || contains c t.
Proof.
  induction s as [|a s IH]; [done|].
  rewrite append_cons. simpl. rewrite IH. by rewrite orb_assoc.
Qed.

Lemma length_pretty_N_go x s (k : nat) :
  (x < 10 ^ N.of_nat k)%N →
  (String.length (pretty_N_go x s) ≤ k + String.length s)%nat.
Proof.
  revert x s. induction k as [|k IH]; intros x s Hx.
  - assert (x = 0%N) as -> by (change (10 ^ N.of_nat 0)%N with 1%N in Hx; lia).
    rewrite pretty_N_go_0. lia.
  - destruct (decide (x = 0)%N) as [->|H0].
    + rewrite pretty_N_go_0. lia.
    + rewrite pretty_N_go_step by lia.
      etransitivity; [apply IH | simpl; lia].
      apply N.Div0.div_lt_upper_bound.
      by rewrite Nat2N.inj_succ, N.pow_succ_r' in Hx.
Qed.

(** A number below [10 ^ k] prints in at most [k] digits. *)
Lemma str_length (n k : nat) :
  (1 ≤ k)%nat → (N.of_nat n < 10 ^ N.of_nat k)%N →
  (String.length (str n) ≤ k)%nat.
Proof.
  intros Hk Hn. unfold str, pretty, pretty_nat, pretty, pretty_N.
  destruct (decide (N.of_nat n = 0)%N) as [H0|H0]; [simpl; lia|].
  pose proof (length_pretty_N_go (N.of_nat n) "" k Hn) as Hlen.
  simpl in Hlen. lia.
Qed.

Lemma str_length_limit z :
  0 <= z → z < 10 ^ Z.of_nat int_max_str_digits →
  (String.length (str (Z.to_nat z)) ≤ int_max_str_digits)%nat.
Proof.
  intros Hpos Hz. apply str_length; [unfold int_max_str_digits; lia|].
  apply N2Z.inj_lt. rewrite N2Z.inj_pow, !nat_N_Z, Z2Nat.id by done.
  exact Hz.
Qed.

Lemma int_str (n : nat) :
  (String.length (str n) ≤ int_max_str_digits)%nat →
  int (str n) = Ok (Z.of_nat n).
Proof.
  intros Hlen. destruct (str_digits n) as (Hall & Hne & _ & Hint).
  destruct (int_decimal _ Hall Hne) as (z & Hz & _ & ->).
  rewrite Hint in Hz. injection Hz as <-.
  by rewrite (proj2 (Nat.ltb_ge _ _) Hlen).
Qed.

(** Whatever [parse_whxhh] accepts is a pair of positive numbers. *)
Theorem parse_whxhh_positive s w h :
  parse_whxhh s = Ok (w, h) → 0 < w ∧ 0 < h.
Proof.
  unfold parse_whxhh.
  destruct (negb (contains "x" (lower s))); [done|].
  destruct (split_once "x" (lower s)) as [[w_str h_str]|]; [|done].
  intros (w' & _ & (h' & _ & H)%bind_Ok)%bind_Ok.
  destruct ((w' <=? 0) || (h' <=? 0)) eqn:Hpos; [done|].
  injection H as -> ->.
  apply orb_false_iff in Hpos as [H1%Z.leb_gt H2%Z.leb_gt]. lia.
Qed.

Lemma parse_whxhh_positive_witness : 0 < 1080 ∧ 0 < 720.
Proof. apply (parse_whxhh_positive " 1080 X 720 "). reflexivity. Defined.

(** The dimensions [main] prints for a group read back as that group's
    key: [parse_whxhh] undoes [dims_text] on positive dimensions of at
    most 4300 digits, the numbers Python prints and reads. *)
Theorem parse_whxhh_dims_text w h :
  0 < w < 10 ^ 4300 → 0 < h < 10 ^ 4300 →
  parse_whxhh (dims_text (w, h)) = Ok (w, h).
Proof.
  intros [Hw Hwl] [Hh Hhl].
  pose proof (str_length_limit w ltac:(lia) Hwl) as Hwlen.
  pose proof (str_length_limit h ltac:(lia) Hhl) as Hhlen.
  unfold parse_whxhh, dims_text. simpl fst. simpl snd.
  destruct (str_digits (Z.to_nat w)) as (Hwd & _ & Hwx & _).
  destruct (str_digits (Z.to_nat h)) as (Hhd & _ & _ & _).
  rewrite lower_append, (lower_digits _ Hwd).
  change (lower ("x" +:+ str (Z.to_nat h)))
    with (String "x" (lower (str (Z.to_nat h)))).
  rewrite (lower_digits _ Hhd).
  rewrite contains_append. simpl contains.
  rewrite orb_true_r. simpl negb. cbv iota.
  rewrite split_once_append by done.
  rewrite !strip_digits by done. rewrite !int_str by done. simpl.
  rewrite !Z2Nat.id by lia.
  replace (w <=? 0) with false by (symmetry; apply Z.leb_gt; lia).
  replace (h <=? 0) with false by (symmetry; apply Z.leb_gt; lia).
  done.
Qed.

Lemma parse_whxhh_dims_text_witness :
  parse_whxhh (dims_text (1920, 1080)) = Ok (1920, 1080).
Proof. apply parse_whxhh_dims_text; split; reflexivity. Defined.

Lemma all_digits_no_x s : all_digits s = true → contains "x" s = false.
Proof.
  induction s as [|c s IH]; [done|]. simpl.
  intros [Hc Hs]%andb_true_iff. rewrite (IH Hs), orb_false_r.
  apply Ascii.eqb_neq. intros ->. discriminate Hc.
Qed.

Lemma all_digit_chars_no_x s :
  all_digit_chars s = true → contains "x" s = false.
Proof.
  induction s as [|c s IH]; [done|]. simpl.
  intros [Hc Hs]%andb_true_iff. rewrite (IH Hs), orb_false_r.
  apply Ascii.eqb_neq. intros ->. discriminate Hc.
Qed.

Lemma dims_text_not_digits wh : isdigit (dims_text wh) = false.
Proof.
  destruct (isdigit (dims_text wh)) eqn:Hd; [|done].
  assert (all_digit_chars (dims_text wh) = true) as Hall
    by (destruct (dims_text wh); done).
  apply all_digit_chars_no_x in Hall. unfold dims_text in Hall.
  rewrite contains_append in Hall. simpl in Hall.
  by rewrite orb_true_r in Hall.
Qed.

(** A group is selected by typing the dimensions under which it is
    listed, on the command line as well as at the prompt (for
    dimensions of at most 4300 digits, the numbers Python prints and
    reads). *)
Theorem resolve_group_dims_text (script : Script)
    (groups : gmap (Z * Z) (list Path)) (wh : Z * Z) :
  is_Some (groups !! wh) → 0 < wh.1 < 10 ^ 4300 → 0 < wh.2 < 10 ^ 4300 →
  resolve_group script (dims_text wh) groups = Ok (Group wh)
  ∧ ∀ c fs, run (resolve_choice c script (dims_text wh) groups) fs
            = (Return (Group wh), fs).
Proof.
  intros Hkey Hw Hh. destruct wh as [w h]. simpl in Hw, Hh.
  pose proof (dims_text_not_digits (w, h)) as Hd.
  pose proof (parse_whxhh_dims_text w h Hw Hh) as Hparse.
  split; [by apply resolve_group_key|].
  intros c fs. unfold resolve_choice.
  assert (has_interactive_mode script && String.eqb (dims_text (w, h)) "0"
          = false) as ->.
  { apply not_interactive_choice. intros _ H0. by rewrite H0 in Hd. }
  rewrite Hd, Hparse. by rewrite bool_decide_eq_true_2.
Qed.

Lemma resolve_group_dims_text_witness :
  resolve_group soul (dims_text (50, 50))
    (group_by_dimensions Sample.folder (discover_images Sample.folder))
  = Ok (Group (50, 50))
  ∧ ∀ c fs,
      run (resolve_choice c soul (dims_text (50, 50))
             (group_by_dimensions Sample.folder
                (discover_images Sample.folder))) fs
      = (Return (Group (50, 50)), fs).
Proof.
  apply resolve_group_dims_text; [|split; reflexivity | split; reflexivity].
  exists ["small.png"]. reflexivity.
Defined.

(** ** Manual selection *)

Lemma index_elem_of {A} (xs : list A) i x : index xs i = Ok x → x ∈ xs.
Proof.
  unfold index. destruct (xs !! Z.to_nat i) eqn:H; [|done].
  intros [= <-]. by eapply list_elem_of_lookup_2.
Qed.

Lemma selection_loop_inv fs all_images inputs :
  ∀ sel frames,
    Forall (fun p => p ∈ all_images) sel →
    selection_loop fs all_images inputs sel = Return frames →
    frames ≠ []
    ∧ Forall (fun p => p ∈ all_images) frames
    ∧ Exists (fun line => lower (strip line) = "done") inputs.
Proof.
  induction inputs as [|line rest IH]; intros sel frames Hsel Hret.
  - simpl in Hret. by case_match.
  - simpl in Hret.
    repeat case_match; simplify_eq; try done.
    all: try (eapply IH in Hret as (? & ? & ?);
              [ split_and!; [done | done | by apply Exists_cons_tl] | ];
              first [ done
                    | by apply Forall_nil
                    | by apply Forall_delete
                    | apply Forall_app; split; [done|];
                      apply Forall_singleton; by eapply index_elem_of ]).
    all: split_and!; [done | done |].
    all: apply Exists_cons_hd; by apply String.eqb_eq.
Qed.

(** When the manual selection returns, the user has typed [done], the
    sequence it returns is not empty, each of its frames is one of the
    listed images, and the folder is as it was. *)
Theorem interactive_image_selection_returns inputs all_images fs frames fs' :
  run (interactive_image_selection inputs all_images) fs = (Return frames, fs') →
  fs' = fs
  ∧ frames ≠ []
  ∧ Forall (fun p => p ∈ all_images) frames
  ∧ Exists (fun line => lower (strip line) = "done") inputs.
Proof.
  unfold interactive_image_selection. cbn [run]. intros [= Hloop <-].
  split; [done|]. by eapply selection_loop_inv.
Qed.

Lemma interactive_image_selection_returns_witness :
  Sample.folder = Sample.folder
  ∧ ["a.png"; "c.png"] ≠ []
  ∧ Forall (fun p => p ∈ discover_images Sample.folder) ["a.png"; "c.png"]
  ∧ Exists (fun line => lower (strip line) = "done")
           ["done"; "2"; "1"; "r2"; "3"; " DONE "].
Proof.
  apply (interactive_image_selection_returns
           ["done"; "2"; "1"; "r2"; "3"; " DONE "]
           (discover_images Sample.folder) Sample.folder).
  vm_compute. reflexivity.
Defined.

(** ** What a run does to the folder *)

Lemma readonly_gets {A} (f : Folder → A) : readonly (gets f).
Proof. by intros fs. Qed.

Lemma readonly_sys_exit {A} c : readonly (@sys_exit A c).
Proof. by intros fs. Qed.

Lemma readonly_lift {A} (r : result A) : readonly (lift r).
Proof. by intros fs. Qed.

Lemma readonly_mret {A} (a : A) : readonly (mret a).
Proof. by intros fs. Qed.

Lemma readonly_bind {A B} (m : M A) (k : A → M B) :
  readonly m → (∀ a, readonly (k a)) → readonly (m ≫= k).
Proof.
  intros Hm Hk fs. rewrite run_bind. specialize (Hm fs).
  destruct (run m fs) as [[a|e|code|] fs']; simpl in Hm; subst; try done.
  apply Hk.
Qed.

Lemma readonly_selection inputs all_images :
  readonly (interactive_image_selection inputs all_images).
Proof. by intros fs. Qed.

Ltac goal_case :=
  match goal with
  | |- context [match ?x with _ => _ end] => destruct x eqn:?
  end.

Ltac solve_readonly :=
  repeat first
    [ apply readonly_gets | apply readonly_sys_exit | apply readonly_lift
    | apply readonly_mret | apply readonly_selection
    | apply readonly_bind; [|intros ?]
    | goal_case ].

Lemma bind_readonly_result {A} (m : M A) (k : A → M unit) o fs :
  readonly m →
  (∀ a, run m fs = (Return a, fs) → main_result o fs (run (k a) fs)) →
  main_result o fs (run (m ≫= k) fs).
Proof.
  intros Hm Hk. rewrite run_bind. specialize (Hm fs).
  destruct (run m fs) as [[a|e|code|] fs'] eqn:Hrun; simpl in Hm; subst;
    try (by left).
  by apply Hk.
Qed.

Lemma find_replaced (l : list (Path * Entry)) p e :
  p ∈ l.*1 →
  (fun ie : nat * (Path * Entry) => ie.2.2)
    <$> list_find (fun pe : Path * Entry => bool_decide (pe.1 = p))
          ((fun pe : Path * Entry =>
              if bool_decide (pe.1 = p) then (p, e) else pe) <$> l)
  = Some e.
Proof.
  induction l as [|[q e0] l IH]; intros Hin; [by apply elem_of_nil in Hin|].
  simpl. destruct (decide (q = p)) as [->|Hq].
  - rewrite (bool_decide_eq_true_2 (p = p)) by done. simpl.
    rewrite (bool_decide_eq_true_2 (p = p)) by done. done.
  - rewrite (bool_decide_eq_false_2 (q = p)) by done. simpl.
    rewrite (bool_decide_eq_false_2 (q = p)) by done. simpl.
    apply elem_of_cons in Hin as [Heq|Hin]; [by subst|].
    specialize (IH Hin). simpl in IH.
    destruct (list_find _ _) as [[i pe]|]; by simplify_eq/=.
Qed.

Lemma find_appended (l : list (Path * Entry)) p e :
  p ∉ l.*1 →
  (fun ie : nat * (Path * Entry) => ie.2.2)
    <$> list_find (fun pe : Path * Entry => bool_decide (pe.1 = p))
          (l ++ [(p, e)])
  = Some e.
Proof.
  induction l as [|[q e0] l IH]; intros Hin; simpl.
  - by rewrite (bool_decide_eq_true_2 (p = p)).
  - apply not_elem_of_cons in Hin as [Hq Hin]. simpl in Hq.
    rewrite (bool_decide_eq_false_2 (q = p)) by done. simpl.
    specialize (IH Hin). simpl in IH.
    destruct (list_find _ _) as [[i pe]|]; by simplify_eq/=.
Qed.

Lemma entry_write_same fs p e : entry (write fs p e) p = Some e.
Proof.
  unfold entry, write. simpl. destruct (exists_ fs p) eqn:Hex.
  - apply find_replaced. by apply exists_true.
  - apply find_appended. by apply exists_false.
Qed.

Lemma save_animation_folder K frames out_path fps fmt quality fs r fs' :
  save_animation K frames out_path fps fmt quality fs = (r, fs') →
  (fs' = fs ∧ r ≠ Ok ())
  ∨ (r = Ok ()
     ∧ ∃ e, is_file e = true ∧ st_ctime e = Some (clock fs)
            ∧ fs' = write fs out_path e).
Proof.
  unfold save_animation. destruct frames as [|first rest];
    [intros [= <- <-]; by left|].
  cbv zeta. unfold save.
  destruct (String.eqb fmt "gif"); [|destruct (String.eqb fmt "webp")];
    try (intros [= <- <-]; by left);
    match goal with |- context [k_save K first ?a] =>
      destruct (k_save K first a) end;
    intros H; inversion H; subst;
    first [ by left
          | right; split; [done|]; eexists;
            split; [|split; [|reflexivity]]; reflexivity ].
Qed.

Lemma main_cases script K o c fs :
  main_result o fs (run (main script K o c) fs).
Proof.
  unfold main.
  apply bind_readonly_result; [solve_readonly|]. intros images _.
  destruct images as [|p ps]; [by left|].
  apply bind_readonly_result; [solve_readonly|]. intros groups _.
  destruct (bool_decide (groups = ∅)); [by left|].
  apply bind_readonly_result; [unfold resolve_choice; solve_readonly|].
  intros selection _.
  apply bind_readonly_result; [solve_readonly|].
  intros [selected_wh ordered] _.
  apply bind_readonly_result; [solve_readonly|]. intros prefs _. cbv zeta.
  apply bind_readonly_result; [solve_readonly|]. intros resize_to _.
  rewrite run_bind. cbn [run].
  match goal with |- context [unique_output_path fs ?ext ?ov] =>
    destruct (unique_output_path fs ext ov) as [out|] eqn:Hout end;
    [|by left].
  destruct (opt_dry_run o) eqn:Hdry; [by left|].
  destruct (negb (opt_non_interactive o) && negb (ask_confirm c)); [by left|].
  apply bind_readonly_result; [solve_readonly|]. intros loaded _.
  destruct (loaded.1) as [frames|e]; [|by left].
  rewrite run_bind. cbn [run].
  match goal with |- context [save_animation K frames out ?fps ?fmt ?q fs] =>
    destruct (save_animation K frames out fps fmt q fs) as [r fs'] eqn:Hsave
  end.
  apply save_animation_folder in Hsave
    as [[-> Hr] | (-> & e & Hfile & Hctime & ->)].
  - destruct r as [[]|err]; [done | by left].
  - cbn [run lift sys_exit]. unfold stat, stat_ctime.
    rewrite entry_write_same, Hctime. simpl.
    right. split; [done|]. by eexists _, out, e.
Qed.

(** A dry run never changes the folder, and never returns normally: it
    ends at the latest by [sys.exit(0)] after the plan is shown. *)
Theorem main_dry_run_writes_nothing script K o c fs :
  opt_dry_run o = true →
  (run (main script K o c) fs).2 = fs
  ∧ (run (main script K o c) fs).1 ≠ Return ().
Proof.
  intros Hdry.
  destruct (main_cases script K o c fs) as [H | [Hno _]]; [done|].
  congruence.
Qed.

(** Without [--overwrite] a run leaves every entry of the folder in
    place: the folder afterwards has the same entries in the same
    order, followed by at most one new file whose name was unused. *)
Theorem main_never_overwrites script K o c fs :
  opt_overwrite o = false →
  folder_name (run (main script K o c) fs).2 = folder_name fs
  ∧ (iterdir (run (main script K o c) fs).2 = iterdir fs
     ∨ ∃ out e,
         exists_ fs out = false
         ∧ is_file e = true
         ∧ iterdir (run (main script K o c) fs).2 = iterdir fs ++ [(out, e)]).
Proof.
  intros Hover.
  destruct (main_cases script K o c fs)
    as [[-> _] | (_ & ext & out & e & Hout & Hfile & ->)].
  - split; [done | by left].
  - rewrite Hover in Hout.
    destruct (unique_output_path_spec fs ext) as (p' & Hp' & Hfree & _).
    assert (p' = out) as -> by congruence.
    split; [done|]. right. exists out, e. split; [done|]. split; [done|].
    simpl. by rewrite Hfree.
Qed.

Lemma main_dry_run_writes_nothing_witness :
  (run (main flor Sample.kernels
          {| opt_fmt := Some "webp"; opt_fps := 12; opt_resize := None;
             opt_group := Some "1"; opt_reverse := true;
             opt_overwrite := true; opt_quality := 80;
             opt_non_interactive := true; opt_dry_run := true;
             opt_verbose := false |} Sample.console) Sample.folder).2
  = Sample.folder
  ∧ (run (main flor Sample.kernels
            {| opt_fmt := Some "webp"; opt_fps := 12; opt_resize := None;
               opt_group := Some "1"; opt_reverse := true;
               opt_overwrite := true; opt_quality := 80;
               opt_non_interactive := true; opt_dry_run := true;
               opt_verbose := false |} Sample.console) Sample.folder).1
    ≠ Return ().
Proof. apply main_dry_run_writes_nothing. reflexivity. Defined.

Lemma main_never_overwrites_witness :
  folder_name (run (main flor Sample.kernels (Sample.options "1")
                      Sample.console) Sample.folder).2
  = folder_name Sample.folder
  ∧ (iterdir (run (main flor Sample.kernels (Sample.options "1")
                     Sample.console) Sample.folder).2
     = iterdir Sample.folder
     ∨ ∃ out e,
         exists_ Sample.folder out = false
         ∧ is_file e = true
         ∧ iterdir (run (main flor Sample.kernels (Sample.options "1")
                           Sample.console) Sample.folder).2
           = iterdir Sample.folder ++ [(out, e)]).
Proof. apply main_never_overwrites. reflexivity. Defined.

(** ** Exit codes of a run *)

Lemma group_by_dimensions_empty fs paths :
  (∀ p, p ∈ paths → get_image_size fs p = None) →
  group_by_dimensions fs paths = ∅.
Proof.
  intros Hnone. apply map_eq. intros key.
  rewrite group_by_dimensions_lookup, lookup_empty.
  assert (members fs paths key = []) as ->; [|done].
  apply elem_of_nil_inv. intros p [Hsize Hin]%list_elem_of_filter.
  rewrite (Hnone p Hin) in Hsize. done.
Qed.

(** When the folder holds no supported image, or none that decodes,
    the run ends with exit code 1 and writes nothing. *)
Theorem main_no_images_exit_1 script K o c fs :
  (∀ p, p ∈ discover_images fs → get_image_size fs p = None) →
  run (main script K o c) fs = (Exited 1, fs).
Proof.
  intros Hnone. unfold main. rewrite run_bind. cbn [run gets].
  pose proof (group_by_dimensions_empty fs _ Hnone) as Hempty.
  destruct (discover_images fs) as [|p ps]; [done|].
  rewrite run_bind. cbn [run gets]. rewrite Hempty.
  by rewrite bool_decide_eq_true_2.
Qed.

Lemma main_no_images_exit_1_witness :
  run (main soul Sample.kernels (Sample.options "1") Sample.console)
      {| folder_name := "soul";
         iterdir := [("notes.txt", Sample.broken 1);
                     ("broken.png", Sample.broken 2);
                     ("soul.gif", Sample.file 3 (Sample.image "P" 4 4 [0]))];
         clock := 4 |}
  = (Exited 1,
     {| folder_name := "soul";
        iterdir := [("notes.txt", Sample.broken 1);
                    ("broken.png", Sample.broken 2);
                    ("soul.gif", Sample.file 3 (Sample.image "P" 4 4 [0]))];
        clock := 4 |}).
Proof.
  apply main_no_images_exit_1.
  intros p Hp. vm_compute in Hp.
  apply list_elem_of_singleton in Hp as ->. reflexivity.
Defined.

Lemma group_by_dimensions_nonempty fs paths p wh :
  p ∈ paths → get_image_size fs p = Some wh →
  paths ≠ [] ∧ group_by_dimensions fs paths ≠ ∅.
Proof.
  intros Hin Hsize. split; [by intros ->; apply elem_of_nil in Hin|].
  intros Hempty.
  assert (p ∈ members fs paths wh) as Hp by by apply list_elem_of_filter.
  pose proof (group_by_dimensions_lookup fs paths wh) as Hl.
  rewrite Hempty, lookup_empty in Hl.
  destruct (members fs paths wh); [by apply elem_of_nil in Hp | done].
Qed.

(** With [--non-interactive] and no [--group] the run is a usage error:
    exit code 2, nothing written (when some image decodes; otherwise
    the exit code is 1). *)
Theorem main_non_interactive_needs_group script K o c fs p wh :
  p ∈ discover_images fs → get_image_size fs p = Some wh →
  truthy (opt_group o) = false →
  opt_non_interactive o = true →
  run (main script K o c) fs = (Exited 2, fs).
Proof.
  intros Hin Hsize Hgroup Hnon.
  destruct (group_by_dimensions_nonempty _ _ _ _ Hin Hsize) as [Himg Hgrp].
  unfold main. rewrite run_bind. cbn [run gets].
  destruct (discover_images fs) as [|q qs]; [done|].
  rewrite run_bind. cbn [run gets].
  rewrite bool_decide_eq_false_2 by done.
  rewrite run_bind. by rewrite Hgroup, Hnon.
Qed.

Lemma main_non_interactive_needs_group_witness :
  run (main flor Sample.kernels
         {| opt_fmt := Some "gif"; opt_fps := 8; opt_resize := None;
            opt_group := None; opt_reverse := false; opt_overwrite := false;
            opt_quality := 80; opt_non_interactive := true;
            opt_dry_run := false; opt_verbose := false |} Sample.console)
      Sample.folder
  = (Exited 2, Sample.folder).
Proof.
  apply (main_non_interactive_needs_group flor Sample.kernels _ _
           Sample.folder "a.png" (100, 100)).
  - apply (bool_decide_unpack _). vm_compute. exact I.
  - reflexivity.
  - reflexivity.
  - reflexivity.
Defined.

Lemma resolve_group_Some script groups g wh :
  resolve_group script g groups = Ok (Group wh) → is_Some (groups !! wh).
Proof.
  unfold resolve_group.
  destruct (has_interactive_mode script && String.eqb g "0"); [done|].
  destruct (isdigit g).
  - intros (gi & _ & H)%bind_Ok.
    destruct (negb (in_range gi (sizes_sorted groups))); [done|].
    apply bind_Ok in H as (wh' & Hidx & [= ->]).
    apply index_elem_of in Hidx.
    by apply (sizes_sorted_listing groups).
  - intros (wh' & _ & H)%bind_Ok.
    destruct (bool_decide (is_Some (groups !! wh'))) eqn:Hk; [|done].
    injection H as <-. by apply bool_decide_eq_true in Hk.
Qed.

Lemma group_lookup_members fs paths wh :
  is_Some (group_by_dimensions fs paths !! wh) →
  group_by_dimensions fs paths !! wh = Some (members fs paths wh)
  ∧ paths ≠ [] ∧ group_by_dimensions fs paths ≠ ∅.
Proof.
  intros [files Hfiles]. pose proof Hfiles as Hl.
  rewrite group_by_dimensions_lookup in Hl.
  destruct (members fs paths wh) as [|p ps] eqn:Hm; [done|].
  split; [by rewrite group_by_dimensions_lookup, Hm|].
  assert (p ∈ members fs paths wh) as Hp
    by (rewrite Hm; apply elem_of_cons; by left).
  apply list_elem_of_filter in Hp as [Hsize Hin].
  by eapply group_by_dimensions_nonempty.
Qed.

Lemma run_preferences (o : Options) (c : Console) fs :
  run (if negb (opt_non_interactive o)
          && (negb (truthy (opt_fmt o)) || negb (truthy (opt_resize o)))
       then p ← lift (ask_user_preferences c (opt_non_interactive o));
            mret (Some p)
       else mret None) fs
  = (match preferences o c with Ok x => Return x | Raise e => Raised e end,
     fs).
Proof.
  unfold preferences.
  destruct (negb (opt_non_interactive o) && _); [|done].
  rewrite run_bind. cbn [run lift].
  by destruct (ask_user_preferences c (opt_non_interactive o)).
Qed.

(** A [--resize] value that [parse_whxhh] rejects, once the group is
    resolved: the run prints the text of the exception and ends with
    exit code 2, unless the console refuses that text as markup (a
    value such as [[/b]x5] comes back in the text), in which case the
    console's error ends the run.  An error of the preference prompts,
    when they are shown, ends the run before that.  Nothing is written
    in any of these cases. *)
Theorem main_invalid_resize script K o c fs wh e :
  truthy (opt_group o) = true →
  resolve_group script (default "" (opt_group o))
    (group_by_dimensions fs (discover_images fs)) = Ok (Group wh) →
  truthy (opt_resize o) = true →
  parse_whxhh (default "" (opt_resize o)) = Raise e →
  run (main script K o c) fs
  = (match preferences o c with
     | Raise err => Raised err
     | Ok _ =>
         match print_markup c ("[red]Invalid --resize value: "
                               +:+ exn_message e +:+ "[/]") with
         | Ok _ => Exited 2
         | Raise err => Raised err
         end
     end, fs).
Proof.
  intros Hgroup Hres Hresize Hparse.
  destruct (group_lookup_members _ _ _ (resolve_group_Some _ _ _ _ Hres))
    as (Hfiles & Himg & Hgrp).
  unfold main. rewrite run_bind. cbn [run gets].
  destruct (discover_images fs) as [|q qs] eqn:Hd; [done|].
  rewrite run_bind. cbn [run gets].
  rewrite bool_decide_eq_false_2 by done.
  rewrite run_bind, Hgroup, Hres. cbn [run mret M_ret].
  rewrite run_bind, run_bind, Hfiles. cbn [run lift gets mret M_ret].
  rewrite run_bind. cbn [run gets mret M_ret].
  rewrite run_bind, run_preferences.
  destruct (preferences o c) as [prefs|err]; [|done]. cbv beta iota zeta.
  rewrite run_bind, Hresize. cbn [negb].
  assert (∀ prefs : option (string * option (Z * Z)),
            match prefs with Some (_, _) | _ => @None (Z * Z) end = None)
    as Hnone by (by intros [[? ?]|]).
  rewrite !Hnone.
  rewrite bool_decide_eq_false_2 by (by intros [? ?]).
  rewrite Hparse. cbn [andb negb]. rewrite run_bind. cbn [run lift].
  by destruct (print_markup c _).
Qed.

Lemma main_invalid_resize_witness :
  run (main flor Sample.kernels (Sample.resizing "100x100" "1080p" false)
         (Sample.answer "1"))
      Sample.folder
  = (Exited 2, Sample.folder)
  ∧ run (main soul Sample.kernels (Sample.resizing "1" "[/b]x5" true)
           (Sample.answer "1"))
        Sample.folder
    = (Raised (MarkupError "closing tag '[/b]' doesn't match any open tag"),
       Sample.folder).
Proof.
  split.
  - rewrite (main_invalid_resize flor Sample.kernels
               (Sample.resizing "100x100" "1080p" false) (Sample.answer "1")
               Sample.folder (100, 100)
               (ValueError "Expected format WIDTHxHEIGHT, e.g., 1080x1080"));
      reflexivity.
  - rewrite (main_invalid_resize soul Sample.kernels
               (Sample.resizing "1" "[/b]x5" true) (Sample.answer "1")
               Sample.folder (100, 100) (invalid_literal "[/b]"));
      reflexivity.
Defined.

(** A run with [--non-interactive] and a [--group] that names a group:
    the files of that group are ordered by [sort_by_ctime], loaded in
    that order, and saved at the path from [unique_output_path].  The
    run returns normally when the encoder succeeds; it exits with code
    3, after writing nothing, when no frame loads, and with code 3 when
    the encoder raises. *)
Theorem main_group_mode_run script K o c fs wh rt out :
  opt_non_interactive o = true →
  opt_dry_run o = false →
  truthy (opt_group o) = true →
  resolve_group script (default "" (opt_group o))
    (group_by_dimensions fs (discover_images fs)) = Ok (Group wh) →
  resize_request o = Ok rt →
  unique_output_path fs (lower (final_format o)) (opt_overwrite o) = Some out →
  run (main script K o c) fs
  = match surviving K fs rt (final_format o)
            (sort_by_ctime fs (members fs (discover_images fs) wh)
               (opt_reverse o)) with
    | [] => (Exited 3, fs)
    | frames =>
        match save_animation K frames out (opt_fps o)
                (lower (final_format o)) (opt_quality o) fs with
        | (Ok _, fs') => (Return (), fs')
        | (Raise _, fs') => (Exited 3, fs')
        end
    end.
Proof.
  intros Hnon Hdry Hgroup Hres Hresize Hout.
  destruct (group_lookup_members _ _ _ (resolve_group_Some _ _ _ _ Hres))
    as (Hfiles & Himg & Hgrp).
  unfold main. rewrite run_bind. cbn [run gets].
  destruct (discover_images fs) as [|q qs] eqn:Hd; [done|].
  rewrite run_bind. cbn [run gets].
  rewrite bool_decide_eq_false_2 by done.
  rewrite run_bind, Hgroup, Hres. cbn [run mret M_ret].
  rewrite run_bind, run_bind, Hfiles. cbn [run lift gets mret M_ret].
  rewrite run_bind. cbn [run gets mret M_ret].
  rewrite run_bind, run_preferences.
  assert (preferences o c = Ok None) as ->
    by (unfold preferences; by rewrite Hnon).
  cbv beta iota zeta.
  unfold resize_request in Hresize. unfold final_format in *.
  rewrite bool_decide_eq_false_2 by (by intros [? ?]).
  cbn [negb]. rewrite andb_true_r.
  assert (run (if truthy (opt_resize o)
               then match parse_whxhh (default "" (opt_resize o)) with
                    | Ok wh0 => mret (Some wh0)
                    | Raise e =>
                        _ ← lift (print_markup c
                                    ("[red]Invalid --resize value: "
                                     +:+ exn_message e +:+ "[/]"));
                        sys_exit 2
                    end
               else mret None) fs = (Return rt, fs)) as Hrt.
  { destruct (truthy (opt_resize o)).
    - apply bind_Ok in Hresize as (wh0 & -> & [= <-]). done.
    - by injection Hresize as <-. }
  rewrite run_bind, Hrt.
  rewrite run_bind. cbn [run]. rewrite Hout, Hdry, Hnon. cbn [negb andb].
  rewrite run_bind. cbn [run gets]. rewrite load_frames_safely_spec.
  destruct (surviving K fs rt _ _) as [|first rest]; [done|].
  cbn [fst]. rewrite run_bind. cbn [run].
  destruct (save_animation K (first :: rest) out _ _ _ fs) as [r fs'] eqn:Hsave.
  apply save_animation_folder in Hsave
    as [[-> Hr] | (-> & e & Hfile & Hctime & ->)].
  - by destruct r as [[]|err].
  - cbn [run lift]. unfold stat, stat_ctime.
    by rewrite entry_write_same, Hctime.
Qed.

Lemma main_group_mode_run_witness :
  run (main flor Sample.kernels (Sample.options "1") Sample.console)
      Sample.folder
  = match surviving Sample.kernels Sample.folder None
            (final_format (Sample.options "1"))
            (sort_by_ctime Sample.folder
               (members Sample.folder (discover_images Sample.folder)
                  (100, 100))
               (opt_reverse (Sample.options "1"))) with
    | [] => (Exited 3, Sample.folder)
    | frames =>
        match save_animation Sample.kernels frames "flor.gif"
                (opt_fps (Sample.options "1"))
                (lower (final_format (Sample.options "1")))
                (opt_quality (Sample.options "1")) Sample.folder with
        | (Ok _, fs') => (Return (), fs')
        | (Raise _, fs') => (Exited 3, fs')
        end
    end.
Proof.
  apply (main_group_mode_run flor Sample.kernels (Sample.options "1")
           Sample.console Sample.folder (100, 100) None "flor.gif");
    reflexivity.
Defined.

(** ** Ordering, once more *)

Lemma stable_sort_ties {A K} (leb : K → K → bool) (key : A → K) l :
  (∀ a, leb a a = true) →
  (∀ x y, x ∈ l → y ∈ l → key x = key y) →
  stable_sort leb key l = l.
Proof.
  intros Hrefl. induction l as [|x l IH]; intros Hties; [done|].
  simpl. rewrite IH by (intros; apply Hties; apply elem_of_cons; by right).
  destruct l as [|y l]; [done|]. simpl.
  rewrite (Hties x y), Hrefl; [done | |].
  - apply elem_of_cons. by left.
  - apply elem_of_cons. right. apply elem_of_cons. by left.
Qed.

Lemma sorted_ties {A K} (leb : K → K → bool) (key : A → K) reverse l :
  (∀ a, leb a a = true) →
  (∀ x y, x ∈ l → y ∈ l → key x = key y) →
  sorted leb key reverse l = l.
Proof.
  intros Hrefl Hties. unfold sorted. destruct reverse.
  - rewrite stable_sort_ties; [apply rev_involutive | done |].
    intros x y Hx%list_elem_of_In%in_rev Hy%list_elem_of_In%in_rev.
    by apply Hties; apply list_elem_of_In.
  - by apply stable_sort_ties.
Qed.

(** [sort_by_ctime] only rearranges: whatever the flag and whether or
    not [stat()] works, it returns the given paths, each as often as
    given.  And the sort is stable also when reversed: paths that all
    have the same creation time come back in the order given, with or
    without [reverse]. *)
Theorem sort_by_ctime_rearranges fs paths reverse :
  sort_by_ctime fs paths reverse ≡ₚ paths
  ∧ (Forall (stat_ok fs) paths →
     (∀ p q, p ∈ paths → q ∈ paths → ctime_key fs p = ctime_key fs q) →
     sort_by_ctime fs paths reverse = paths).
Proof.
  split.
  - unfold sort_by_ctime. destruct (mapM _ paths); apply sorted_perm.
  - intros Hok Hties. rewrite sort_by_ctime_stat_ok by done.
    apply sorted_ties; [apply Z.leb_refl | done].
Qed.

Lemma sort_by_ctime_rearranges_witness :
  sort_by_ctime
    {| folder_name := "flor";
       iterdir := [("b.png", Sample.file 5 (Sample.image "RGB" 1 1 [0]));
                   ("a.png", Sample.file 5 (Sample.image "RGB" 1 1 [0]));
                   ("c.png", Sample.file 5 (Sample.image "RGB" 1 1 [0]))];
       clock := 6 |}
    ["b.png"; "a.png"; "c.png"] true
  = ["b.png"; "a.png"; "c.png"].
Proof.
  apply (proj2 (sort_by_ctime_rearranges _ ["b.png"; "a.png"; "c.png"] true)).
  - repeat (constructor; [eexists; reflexivity|]). constructor.
  - intros p q Hp Hq.
    rewrite !elem_of_cons, elem_of_nil in Hp, Hq.
    destruct Hp as [->|[->|[->|[]]]], Hq as [->|[->|[->|[]]]]; reflexivity.
Defined.

(** ** Frames, once more *)

Lemma convert_for_mode K target_format im out :
  convert_for K target_format im = Ok out →
  frame_mode_ok target_format (mode out).
Proof.
  unfold convert_for, frame_mode_ok.
  destruct (String.eqb (lower target_format) "gif").
  - unfold _convert_for_gif.
    by intros (flat & _ & [_ ->]%convert_P_adaptive_size)%bind_Ok.
  - destruct (String.eqb (lower target_format) "webp").
    + unfold _convert_for_webp.
      destruct (bool_decide (mode im ∈ ["RGBA"; "RGB"])) eqn:Hm; simpl.
      * intros [= <-]. apply bool_decide_eq_true in Hm.
        rewrite !elem_of_cons, elem_of_nil in Hm. tauto.
      * intros [_ ->]%convert_size. by right.
    + unfold _ensure_rgba.
      destruct (String.eqb (mode im) "RGBA") eqn:Hm; simpl.
      * intros [= <-]. by apply String.eqb_eq.
      * by intros [_ ->]%convert_size.
Qed.

(** Every frame [load_frames_safely] returns has a mode that fits the
    target format, read without regard to case: [P] for gif, [RGB] or
    [RGBA] for webp, [RGBA] otherwise.  Without a resize target it has
    the dimensions of the decoded file after EXIF transposition. *)
Theorem load_frames_mode_and_size K fs paths resize_to target_format frames :
  (load_frames_safely K fs paths resize_to target_format).1 = Ok frames →
  Forall
    (fun frame =>
       frame_mode_ok target_format (mode frame)
       ∧ (resize_to = None →
          ∃ p raw transposed,
            p ∈ paths
            ∧ open fs p = Ok raw
            ∧ k_exif_transpose K raw = Ok transposed
            ∧ size frame = size (default raw transposed)))
    frames.
Proof.
  rewrite load_frames_safely_spec.
  destruct (surviving K fs resize_to target_format paths)
    as [|im ims] eqn:Hs; [done|].
  simpl. intros [= <-]. rewrite <- Hs. clear Hs im ims.
  apply Forall_forall. intros frame (p & Hin & Hp)%elem_of_surviving.
  apply load_frame_Ok in Hp as (raw & transposed & resized & Hraw & Ht & Hr & Hc).
  split; [by eapply convert_for_mode|].
  intros ->. injection Hr as <-.
  exists p, raw, transposed. split_and!; try done.
  by eapply convert_for_size.
Qed.

Lemma load_frames_mode_and_size_witness :
  Forall
    (fun frame =>
       frame_mode_ok "GIF" (mode frame)
       ∧ (@None (Z * Z) = None →
          ∃ p raw transposed,
            p ∈ ["small.png"; "broken.png"; "a.png"]
            ∧ open Sample.folder p = Ok raw
            ∧ k_exif_transpose Sample.kernels raw = Ok transposed
            ∧ size frame = size (default raw transposed)))
    (surviving Sample.kernels Sample.folder None "GIF"
       ["small.png"; "broken.png"; "a.png"]).
Proof.
  apply (load_frames_mode_and_size Sample.kernels Sample.folder
           ["small.png"; "broken.png"; "a.png"] None "GIF").
  rewrite load_frames_safely_spec.
  destruct (surviving Sample.kernels Sample.folder None "GIF"
              ["small.png"; "broken.png"; "a.png"]) eqn:Hs; [|done].
  exfalso. apply (f_equal length) in Hs. vm_compute in Hs. discriminate Hs.
Defined.

(** ** Groups, once more *)

Lemma members_perm fs paths paths' key :
  paths ≡ₚ paths' → members fs paths key ≡ₚ members fs paths' key.
Proof. intros Hperm. unfold members. by rewrite Hperm. Qed.

Lemma members_nil_perm fs paths paths' key :
  paths ≡ₚ paths' → members fs paths key = [] → members fs paths' key = [].
Proof.
  intros Hperm%(members_perm fs _ _ key) Hnil. rewrite Hnil in Hperm.
  by apply Permutation_nil_l in Hperm.
Qed.

Lemma triple_leb_antisym a b :
  triple_leb a b = true → triple_leb b a = true → a = b.
Proof.
  rewrite !triple_leb_le. destruct a as [[a1 a2] a3], b as [[b1 b2] b3].
  simpl. intros H1 H2. repeat f_equal; lia.
Qed.

Lemma area_key_inj a b : area_key a = area_key b → a = b.
Proof.
  destruct a, b. unfold area_key. simpl. intros [= _ H1 H2]. by subst.
Qed.

Lemma NoDup_area_keys (keys : list (Z * Z)) :
  NoDup keys → NoDup (area_key <$> keys).
Proof.
  induction 1 as [|k keys Hk Hnd IH]; [constructor|].
  rewrite fmap_cons. constructor; [|done].
  intros (k' & Heq%area_key_inj & Hin)%list_elem_of_fmap. by subst.
Qed.

Lemma keys_fold fs paths (keys0 : list (Z * Z)) :
  NoDup keys0 →
  NoDup (foldl (fun keys p =>
                  match get_image_size fs p with
                  | None => keys
                  | Some size => setdefault_key keys size
                  end) keys0 paths)
  ∧ ∀ k, k ∈ foldl (fun keys p =>
                      match get_image_size fs p with
                      | None => keys
                      | Some size => setdefault_key keys size
                      end) keys0 paths
         ↔ k ∈ keys0 ∨ ∃ p, p ∈ paths ∧ get_image_size fs p = Some k.
Proof.
  revert keys0. induction paths as [|p paths IH]; intros keys0 Hnd.
  { split; [done|]. intros k. split; [by left|].
    intros [?|(p & Hp & _)]; [done | by apply elem_of_nil in Hp]. }
  simpl foldl.
  assert (NoDup match get_image_size fs p with
                | None => keys0
                | Some size => setdefault_key keys0 size
                end) as Hnd'.
  { destruct (get_image_size fs p) as [size|]; [|done].
    unfold setdefault_key. case_bool_decide as Hin; [done|].
    apply NoDup_app. split; [done|]. split; [|apply NoDup_singleton].
    intros k Hk ->%list_elem_of_singleton. done. }
  destruct (IH _ Hnd') as [Hnodup Hin]. split; [done|].
  intros k. rewrite Hin. split.
  - intros [Hk | (q & Hq & Hsize)].
    + destruct (get_image_size fs p) as [size|] eqn:Hp; [|by left].
      unfold setdefault_key in Hk. case_bool_decide; [by left|].
      apply elem_of_app in Hk as [? | ->%list_elem_of_singleton]; [by left|].
      right. exists p. split; [apply elem_of_cons; by left | done].
    + right. exists q. split; [apply elem_of_cons; by right | done].
  - intros [Hk | (q & [->|Hq]%elem_of_cons & Hsize)].
    + left. destruct (get_image_size fs p) as [size|]; [|done].
      unfold setdefault_key. case_bool_decide; [done|].
      apply elem_of_app. by left.
    + left. rewrite Hsize. unfold setdefault_key.
      case_bool_decide; [done|].
      apply elem_of_app. right. by apply list_elem_of_singleton.
    + right. by exists q.
Qed.

Lemma group_by_dimensions_keys_spec fs paths :
  NoDup (group_by_dimensions_keys fs paths)
  ∧ ∀ k, k ∈ group_by_dimensions_keys fs paths
         ↔ ∃ p, p ∈ paths ∧ get_image_size fs p = Some k.
Proof.
  destruct (keys_fold fs paths [] (NoDup_nil_2)) as [Hnd Hin].
  split; [done|]. intros k. unfold group_by_dimensions_keys. rewrite Hin.
  split; [|by right]. intros [Hk|?]; [by apply elem_of_nil in Hk | done].
Qed.

Lemma group_by_dimensions_keys_dom fs paths :
  group_by_dimensions_keys fs paths
  ≡ₚ elements (dom (group_by_dimensions fs paths)).
Proof.
  destruct (group_by_dimensions_keys_spec fs paths) as [Hnd Hin].
  apply NoDup_Permutation; [done | apply NoDup_elements|].
  intros k. rewrite Hin, elem_of_elements, elem_of_dom,
    group_by_dimensions_lookup.
  split.
  - intros (p & Hp & Hsize).
    assert (p ∈ members fs paths k) as Hm by (by apply list_elem_of_filter).
    destruct (members fs paths k); [by apply elem_of_nil in Hm | done].
  - destruct (members fs paths k) as [|p ps] eqn:Hm; [by intros [? ?]|].
    intros _. exists p.
    assert (p ∈ members fs paths k) as [? ?]%list_elem_of_filter
      by (rewrite Hm; apply elem_of_cons; by left).
    done.
Qed.

(** The listing [main] computes from the keys of the dict is the
    listing of the map. *)
Lemma sizes_sorted_keys fs paths :
  listing fs paths = sizes_sorted (group_by_dimensions fs paths).
Proof.
  unfold listing, sizes_sorted.
  apply (sorted_perm_unique triple_leb area_key triple_leb_total
           triple_leb_trans triple_leb_antisym).
  - apply group_by_dimensions_keys_dom.
  - apply NoDup_area_keys, group_by_dimensions_keys_spec.
Qed.

(** The listing of the groups does not depend on the order in which
    the folder yields its files.  The dict of [group_by_dimensions]
    yields its keys in the order in which the sizes first occur, so
    the same files in another order give the keys in another order;
    the sort key (area, width, height) tells any two sizes apart, and
    so the sorted, numbered listing is the same, also among sizes of
    equal area.  Each group holds the same files. *)
Theorem groups_independent_of_order fs paths paths' :
  paths ≡ₚ paths' →
  listing fs paths = listing fs paths'
  ∧ sizes_sorted (group_by_dimensions fs paths) = listing fs paths
  ∧ ∀ key files,
      group_by_dimensions fs paths !! key = Some files →
      ∃ files',
        group_by_dimensions fs paths' !! key = Some files'
        ∧ files ≡ₚ files'.
Proof.
  intros Hperm. split; [|split].
  - destruct (group_by_dimensions_keys_spec fs paths) as [Hnd Hin].
    destruct (group_by_dimensions_keys_spec fs paths') as [Hnd' Hin'].
    apply (sorted_perm_unique triple_leb area_key triple_leb_total
             triple_leb_trans triple_leb_antisym).
    + apply NoDup_Permutation; [done | done |].
      intros k. rewrite Hin, Hin'. by setoid_rewrite Hperm.
    + by apply NoDup_area_keys.
  - symmetry. apply sizes_sorted_keys.
  - intros key files. rewrite !group_by_dimensions_lookup.
    pose proof (members_perm fs _ _ key Hperm) as Hm.
    destruct (members fs paths key) eqn:H1; [done|]. intros [= <-].
    destruct (members fs paths' key) eqn:H2.
    + by apply Permutation_nil_r in Hm.
    + by eexists.
Qed.

Lemma groups_independent_of_order_witness :
  group_by_dimensions_keys Sample.ties ["tall.png"; "square.png"; "wide.png"]
  = [(2, 8); (4, 4); (8, 2)]
  ∧ group_by_dimensions_keys Sample.ties
      ["wide.png"; "tall.png"; "square.png"]
    = [(8, 2); (2, 8); (4, 4)]
  ∧ listing Sample.ties ["tall.png"; "square.png"; "wide.png"]
    = listing Sample.ties ["wide.png"; "tall.png"; "square.png"]
  ∧ sizes_sorted (group_by_dimensions Sample.ties
                    ["tall.png"; "square.png"; "wide.png"])
    = listing Sample.ties ["tall.png"; "square.png"; "wide.png"]
  ∧ ∀ key files,
      group_by_dimensions Sample.ties
        ["tall.png"; "square.png"; "wide.png"] !! key = Some files →
      ∃ files',
        group_by_dimensions Sample.ties
          ["wide.png"; "tall.png"; "square.png"] !! key = Some files'
        ∧ files ≡ₚ files'.
Proof.
  split; [reflexivity|]. split; [reflexivity|].
  apply groups_independent_of_order.
  apply (bool_decide_unpack _). vm_compute. exact I.
Defined.

(** ** The folder after a run *)

Lemma discover_write_unsupported fs out e :
  lower (suffix out) ∉ SUPPORTED_EXTS →
  discover_images (write fs out e) = discover_images fs.
Proof.
  intros Hext. unfold discover_images, write. simpl.
  destruct (exists_ fs out).
  - induction (iterdir fs) as [|[q e0] l IH]; [done|].
    rewrite fmap_cons, !filter_cons. simpl.
    destruct (decide (q = out)) as [->|Hq].
    + rewrite (bool_decide_eq_true_2 (out = out)) by done. simpl.
      rewrite !decide_False by (by intros [_ ?]). apply IH.
    + rewrite (bool_decide_eq_false_2 (q = out)) by done. simpl.
      destruct (decide _); [rewrite !fmap_cons; by f_equal | exact IH].
  - rewrite filter_app, fmap_app, filter_cons. simpl.
    rewrite decide_False by (by intros [_ ?]).
    by rewrite filter_nil, app_nil_r.
Qed.

Lemma find_snd_shift (x : option (nat * (Path * Entry))) :
  (fun ie : nat * (Path * Entry) => ie.2.2) <$> (prod_map S id <$> x)
  = (fun ie : nat * (Path * Entry) => ie.2.2) <$> x.
Proof. by destruct x as [[i pe]|]. Qed.

Lemma entry_write_other fs p e q :
  q ≠ p → entry (write fs p e) q = entry fs q.
Proof.
  intros Hq. unfold entry, write. simpl. destruct (exists_ fs p).
  - induction (iterdir fs) as [|[r e0] l IH]; [done|].
    rewrite fmap_cons. simpl. destruct (decide (r = p)) as [->|Hr].
    + rewrite (bool_decide_eq_true_2 (p = p)) by done. simpl.
      rewrite (bool_decide_eq_false_2 (p = q)) by done. simpl.
      by rewrite !find_snd_shift.
    + rewrite (bool_decide_eq_false_2 (r = p)) by done. simpl.
      destruct (decide (r = q)) as [->|Hrq].
      * by rewrite (bool_decide_eq_true_2 (q = q)).
      * rewrite (bool_decide_eq_false_2 (r = q)) by done. simpl.
        by rewrite !find_snd_shift.
  - induction (iterdir fs) as [|[r e0] l IH]; simpl.
    + by rewrite (bool_decide_eq_false_2 (p = q)).
    + destruct (decide (r = q)) as [->|Hrq].
      * by rewrite (bool_decide_eq_true_2 (q = q)).
      * rewrite (bool_decide_eq_false_2 (r = q)) by done. simpl.
        by rewrite !find_snd_shift.
Qed.

Lemma get_image_size_write_other fs p e q :
  q ≠ p → get_image_size (write fs p e) q = get_image_size fs q.
Proof.
  intros Hq. unfold get_image_size, open. by rewrite entry_write_other.
Qed.

Lemma members_ext fs fs' paths key :
  (∀ p, p ∈ paths → get_image_size fs' p = get_image_size fs p) →
  members fs' paths key = members fs paths key.
Proof.
  unfold members. induction paths as [|p ps IH]; intros Hsame; [done|].
  rewrite !filter_cons, Hsame by (apply elem_of_cons; by left).
  rewrite IH by (intros; apply Hsame, elem_of_cons; by right). done.
Qed.

Lemma group_by_dimensions_ext fs fs' paths :
  (∀ p, p ∈ paths → get_image_size fs' p = get_image_size fs p) →
  group_by_dimensions fs' paths = group_by_dimensions fs paths.
Proof.
  intros Hsame. apply map_eq. intros key.
  by rewrite !group_by_dimensions_lookup, (members_ext fs fs').
Qed.

(** A gif written at the path [unique_output_path] gives is invisible
    to the next run: whether the encoder succeeds or not, and also
    when an older output is overwritten, the folder yields the same
    image files afterwards and they fall into the same groups. *)
Theorem gif_run_keeps_groups K frames fps quality fs overwrite out r fs' :
  unique_output_path fs "gif" overwrite = Some out →
  save_animation K frames out fps "gif" quality fs = (r, fs') →
  discover_images fs' = discover_images fs
  ∧ group_by_dimensions fs' (discover_images fs')
    = group_by_dimensions fs (discover_images fs).
Proof.
  intros (stem & -> & _)%unique_output_path_name Hsave.
  pose proof (gif_name_unsupported stem) as Hext.
  change (stem +:+ ".gif") with (stem +:+ "." +:+ "gif") in Hext.
  apply save_animation_folder in Hsave
    as [[-> _] | (_ & e & _ & _ & ->)]; [done|].
  rewrite discover_write_unsupported by done. split; [done|].
  apply group_by_dimensions_ext. intros p Hp.
  apply get_image_size_write_other. intros ->.
  by apply elem_of_discover_images in Hp as (? & ? & ? & ?).
Qed.

Lemma gif_run_keeps_groups_witness :
  discover_images
    (save_animation Sample.kernels [Sample.image "P" 100 100 [7]]
       "flor.gif" 8 "gif" 80 Sample.folder).2
  = discover_images Sample.folder
  ∧ group_by_dimensions
      (save_animation Sample.kernels [Sample.image "P" 100 100 [7]]
         "flor.gif" 8 "gif" 80 Sample.folder).2
      (discover_images
         (save_animation Sample.kernels [Sample.image "P" 100 100 [7]]
            "flor.gif" 8 "gif" 80 Sample.folder).2)
    = group_by_dimensions Sample.folder (discover_images Sample.folder).
Proof.
  apply (gif_run_keeps_groups Sample.kernels [Sample.image "P" 100 100 [7]]
           8 80 Sample.folder false "flor.gif"
           (save_animation Sample.kernels [Sample.image "P" 100 100 [7]]
              "flor.gif" 8 "gif" 80 Sample.folder).1).
  - reflexivity.
  - apply surjective_pairing.
Defined.

(** ** The listing covers the images *)

Lemma fmap_members_skip fs p ps (ks : list (Z * Z)) :
  (∀ k, k ∈ ks → get_image_size fs p ≠ Some k) →
  members fs (p :: ps) <$> ks = members fs ps <$> ks.
Proof.
  induction ks as [|k ks IH]; intros Hskip; [done|].
  rewrite !fmap_cons, IH by (intros; apply Hskip, elem_of_cons; by right).
  f_equal. unfold members. rewrite filter_cons.
  rewrite decide_False; [done|]. apply Hskip, elem_of_cons. by left.
Qed.

Lemma concat_members_perm fs (ks : list (Z * Z)) paths :
  NoDup ks →
  (∀ p k, p ∈ paths → get_image_size fs p = Some k → k ∈ ks) →
  concat (members fs paths <$> ks) ≡ₚ decodable fs paths.
Proof.
  intros Hnd. induction paths as [|p ps IH]; intros Hcov.
  - clear Hnd Hcov. induction ks as [|k ks IHk]; [done | exact IHk].
  - assert (concat (members fs ps <$> ks) ≡ₚ decodable fs ps) as IH'.
    { apply IH. intros q k Hq. apply Hcov, elem_of_cons. by right. }
    unfold decodable in *. rewrite filter_cons.
    destruct (get_image_size fs p) as [k0|] eqn:Hp.
    + rewrite decide_True by eauto.
      assert (k0 ∈ ks) as (l1 & l2 & ->)%list_elem_of_split.
      { apply (Hcov p); [apply elem_of_cons; by left | done]. }
      apply NoDup_app in Hnd as (_ & Hl1 & [Hl2 _]%NoDup_cons).
      rewrite !fmap_app, !fmap_cons, !concat_app, !concat_cons in *.
      rewrite !(fmap_members_skip fs p ps).
      * unfold members at 2. rewrite filter_cons, decide_True by done.
        fold (members fs ps k0). rewrite <- IH'.
        symmetry. apply Permutation_middle.
      * intros k Hk. rewrite Hp. intros [= ->]. done.
      * intros k Hk. rewrite Hp. intros [= ->]. apply (Hl1 k); [done|].
        apply elem_of_cons. by left.
    + rewrite decide_False by (by intros [? ?]).
      rewrite fmap_members_skip; [done|]. intros k _. by rewrite Hp.
Qed.

(** The numbered listing of the groups accounts for every image that
    decodes exactly once: the groups, taken in the order of the
    listing, together hold the decodable paths, each as often as the
    folder yields it, so the file counts of the listing add up to the
    number of decodable images. *)
Theorem groups_cover_decodable fs paths :
  concat ((fun wh => default [] (group_by_dimensions fs paths !! wh))
            <$> sizes_sorted (group_by_dimensions fs paths))
  ≡ₚ decodable fs paths
  ∧ sum_list ((fun wh =>
                 length (default [] (group_by_dimensions fs paths !! wh)))
                <$> sizes_sorted (group_by_dimensions fs paths))
    = length (decodable fs paths).
Proof.
  assert (∀ ks : list (Z * Z),
            (fun wh => default [] (group_by_dimensions fs paths !! wh)) <$> ks
            = members fs paths <$> ks) as Hfun.
  { intros ks. induction ks as [|k ks IH]; [done|].
    rewrite !fmap_cons, IH, group_by_dimensions_lookup.
    by destruct (members fs paths k). }
  assert (concat (members fs paths
                    <$> sizes_sorted (group_by_dimensions fs paths))
          ≡ₚ decodable fs paths) as Hperm.
  { apply concat_members_perm.
    - unfold sizes_sorted. rewrite sorted_perm. apply NoDup_elements.
    - intros p k Hp Hk. unfold sizes_sorted.
      rewrite sorted_perm, elem_of_elements, elem_of_dom,
        group_by_dimensions_lookup.
      assert (p ∈ members fs paths k) as Hm
        by (by apply list_elem_of_filter).
      destruct (members fs paths k); [by apply elem_of_nil in Hm | done]. }
  split; [by rewrite Hfun|].
  rewrite <- Hperm, length_concat, <- Hfun, <- !list_fmap_compose. done.
Qed.

(** ** A run in manual mode *)

(** The first script with [--group 0] and [--non-interactive]: once
    the manual selection returns, its frames are loaded in exactly the
    order the user gave, without any sorting, and saved at the path
    from [unique_output_path]; the exit codes are those of a group
    run. *)
Theorem main_manual_mode_run K o c fs selected rt out :
  opt_non_interactive o = true →
  opt_dry_run o = false →
  opt_group o = Some "0" →
  group_by_dimensions fs (discover_images fs) ≠ ∅ →
  selection_loop fs (discover_images fs) (selection_inputs c) [] = Return selected →
  resize_request o = Ok rt →
  unique_output_path fs (lower (final_format o)) (opt_overwrite o) = Some out →
  run (main flor K o c) fs
  = match surviving K fs rt (final_format o) selected with
    | [] => (Exited 3, fs)
    | frames =>
        match save_animation K frames out (opt_fps o)
                (lower (final_format o)) (opt_quality o) fs with
        | (Ok _, fs') => (Return (), fs')
        | (Raise _, fs') => (Exited 3, fs')
        end
    end.
Proof.
  intros Hnon Hdry Hgroup Hgrp Hsel Hresize Hout.
  assert (selected ≠ []) as Hne.
  { by eapply (selection_loop_inv fs (discover_images fs)
                 (selection_inputs c) [] selected). }
  unfold main. rewrite run_bind. cbn [run gets].
  destruct (discover_images fs) as [|q qs] eqn:Hd.
  { by destruct Hgrp. }
  rewrite run_bind. cbn [run gets].
  rewrite bool_decide_eq_false_2 by done.
  assert (truthy (opt_group o) = true) as Htruthy by (by rewrite Hgroup).
  assert (resolve_group flor (default "" (opt_group o))
            (group_by_dimensions fs (q :: qs)) = Ok Interactive) as Hres
    by (by rewrite Hgroup).
  rewrite run_bind, Htruthy, Hres. cbn [run mret M_ret].
  rewrite run_bind, run_bind.
  unfold interactive_image_selection. cbn [run]. rewrite Hsel.
  destruct selected as [|first rest]; [done|].
  rewrite run_bind. cbn [run gets mret M_ret].
  rewrite run_bind, run_preferences.
  assert (preferences o c = Ok None) as ->
    by (unfold preferences; by rewrite Hnon).
  cbv beta iota zeta.
  unfold resize_request in Hresize. unfold final_format in *.
  rewrite bool_decide_eq_false_2 by (by intros [? ?]).
  cbn [negb]. rewrite andb_true_r.
  assert (run (if truthy (opt_resize o)
               then match parse_whxhh (default "" (opt_resize o)) with
                    | Ok wh0 => mret (Some wh0)
                    | Raise e =>
                        _ ← lift (print_markup c
                                    ("[red]Invalid --resize value: "
                                     +:+ exn_message e +:+ "[/]"));
                        sys_exit 2
                    end
               else mret None) fs = (Return rt, fs)) as Hrt.
  { destruct (truthy (opt_resize o)).
    - apply bind_Ok in Hresize as (wh0 & -> & [= <-]). done.
    - by injection Hresize as <-. }
  rewrite run_bind, Hrt.
  rewrite run_bind. cbn [run]. rewrite Hout, Hdry, Hnon. cbn [negb andb].
  rewrite run_bind. cbn [run gets]. rewrite load_frames_safely_spec.
  destruct (surviving K fs rt _ _) as [|frame frames]; [done|].
  cbn [fst]. rewrite run_bind. cbn [run].
  destruct (save_animation K (frame :: frames) out _ _ _ fs)
    as [r fs'] eqn:Hsave.
  apply save_animation_folder in Hsave
    as [[-> Hr] | (-> & e & Hfile & Hctime & ->)].
  - by destruct r as [[]|err].
  - cbn [run lift]. unfold stat, stat_ctime.
    by rewrite entry_write_same, Hctime.
Qed.

Lemma main_manual_mode_run_witness :
  run (main flor Sample.kernels (Sample.options "0")
         {| ask_group := "1"; ask_format := "gif"; ask_resize := "";
            ask_confirm := true;
            selection_inputs := ["4"; "2"; "2"; "done"];
            print_markup := Sample.plain |})
      Sample.folder
  = match surviving Sample.kernels Sample.folder None
            (final_format (Sample.options "0"))
            ["small.png"; "a.png"; "a.png"] with
    | [] => (Exited 3, Sample.folder)
    | frames =>
        match save_animation Sample.kernels frames "flor.gif"
                (opt_fps (Sample.options "0"))
                (lower (final_format (Sample.options "0")))
                (opt_quality (Sample.options "0")) Sample.folder with
        | (Ok _, fs') => (Return (), fs')
        | (Raise _, fs') => (Exited 3, fs')
        end
    end.
Proof.
  apply (main_manual_mode_run Sample.kernels (Sample.options "0")
           _ Sample.folder ["small.png"; "a.png"; "a.png"] None "flor.gif");
    try reflexivity.
  refine (proj2 (group_by_dimensions_nonempty Sample.folder _ "a.png"
                   (100, 100) _ _)); [|reflexivity].
  apply (bool_decide_unpack _). vm_compute. exact I.
Defined.
